(** * SpotCloud: the SoundCloud query resolver and the SpotDL command builder

    A shallow embedding of the side-effect free helpers of [main.py]
    ([build_spotdl_cmd], [_extract_sc_queries_from_ydl_json],
    [_sanitize_sc_url]) and of the tiered resolver [get_soundcloud_queries],
    whose calls to yt-dlp, to [subprocess.run], to [json.loads] and to
    [shutil.which] are answered by an explicit [world] and logged in a trace. *)

From Stdlib Require Import String Ascii Bool NArith ZArith Lia List.
From Stdlib Require Import DecimalString.
Import ListNotations.

Set Warnings "-register-all".

(** ** Python strings

    A Python [str] is a sequence of Unicode code points. *)

Definition char := N.
Definition str := list char.

(** An ASCII literal of the source, as a [str]. *)
Definition lit (s : string) : str := map N_of_ascii (list_ascii_of_string s).
Arguments lit s%_string : simpl never.

Fixpoint str_eqb (a b : str) : bool :=
  match a, b with
  | [], [] => true
  | x :: a', y :: b' => N.eqb x y && str_eqb a' b'
  | _, _ => false
  end.

(** [str.isspace] on one code point: the table of CPython's
    [_PyUnicode_IsWhitespace], which is what [str.strip()] consults. *)
Definition isspace (c : char) : bool :=
  ((9 <=? c) && (c <=? 13) || (28 <=? c) && (c <=? 32)
   || (c =? 133) || (c =? 160) || (c =? 5760)
   || (8192 <=? c) && (c <=? 8202)
   || (c =? 8232) || (c =? 8233) || (c =? 8239) || (c =? 8287)
   || (c =? 12288))%N.

Fixpoint dropwhile (p : char -> bool) (s : str) : str :=
  match s with
  | [] => []
  | c :: r => if p c then dropwhile p r else s
  end.

Definition lstrip (s : str) : str := dropwhile isspace s.
Definition rstrip (s : str) : str := rev (dropwhile isspace (rev s)).

(** [s.strip()] *)
Definition strip (s : str) : str := rstrip (lstrip s).

(** [s.startswith(p)] *)
Fixpoint startswith (s p : str) {struct p} : bool :=
  match p, s with
  | [], _ => true
  | x :: p', y :: s' => N.eqb x y && startswith s' p'
  | _ :: _, [] => false
  end.

(** [s.split(sep)] for a separator of one character, as the source uses it:
    the fields between the occurrences of [sep]; the list is never empty. *)
Fixpoint split (sep : char) (s : str) : list str :=
  match s with
  | [] => [[]]
  | c :: r =>
      if N.eqb c sep then [] :: split sep r
      else match split sep r with
           | f :: fs => (c :: f) :: fs
           | [] => [[c]]
           end
  end.

(** [l[0]] on the result of a split, which always has a first field. *)
Definition item0 (l : list str) : str := hd [] l.

(** [sep.join(l)] *)
Fixpoint join (sep : str) (l : list str) : str :=
  match l with
  | [] => []
  | [x] => x
  | x :: r => x ++ sep ++ join sep r
  end.

(** [needle in s] for strings. *)
Fixpoint contains (s needle : str) : bool :=
  startswith s needle ||
  match s with
  | [] => false
  | _ :: r => contains r needle
  end.

(** Membership of a string in a list of strings ([x in l]). *)
Definition mem (x : str) (l : list str) : bool := existsb (str_eqb x) l.

Definition question_mark : char := 63%N.
Definition hash_sign : char := 35%N.

(** ** The command builder *)

Section CommandBuilder.

(** [sys.executable], the path of the running interpreter. *)
Variable sys_executable : str.

Definition build_spotdl_cmd (query out_dir bitrate : str) (user_auth : bool)
  : list str :=
  let cmd :=
    [ sys_executable;
      lit "-m"; lit "spotdl"; lit "download"; query;
      lit "--output"; out_dir;
      lit "--format"; lit "m4a";
      lit "--bitrate"; bitrate ] in
  if user_auth then cmd ++ [lit "--user-auth"] else cmd.

End CommandBuilder.

(** ** URL sanitisation *)

Definition _sanitize_sc_url (url : str) : str :=
  item0 (split hash_sign (item0 (split question_mark url))).

(** ** Python values and exceptions

    The values an info-dict of yt-dlp or the output of [json.loads] is made
    of. A dict is kept as its list of items; [dict_get] reads the first item
    with the key. A float is the finite binary number [m * 2^e]. *)

Inductive pyval : Type :=
| PyNone
| PyBool (b : bool)
| PyInt (z : Z)
| PyFloat (m e : Z)
| PyStr (s : str)
| PyList (l : list pyval)
| PyDict (d : list (str * pyval)).

Inductive exn_class : Type :=
| ValueError
| RuntimeError
| AttributeError
| TypeError
| OtherException (name : str).

(** An exception object: its class and [str(exc)]. Every exception of the
    model is an instance of [Exception], the class the resolver catches. *)
Record exn : Type := mk_exn { exn_cls : exn_class; exn_str : str }.

Inductive result (A : Type) : Type :=
| Ok (a : A)
| Raise (e : exn).
Arguments Ok {A} a.
Arguments Raise {A} e.

Definition rbind {A B} (r : result A) (k : A -> result B) : result B :=
  match r with
  | Ok a => k a
  | Raise e => Raise e
  end.

Declare Scope result_scope.
Delimit Scope result_scope with result.
Notation "x <~ r ; k" := (rbind r (fun x => k))
  (at level 61, r at next level, right associativity) : result_scope.

(** [type(v).__name__] *)
Definition type_name (v : pyval) : str :=
  match v with
  | PyNone => lit "NoneType"
  | PyBool _ => lit "bool"
  | PyInt _ => lit "int"
  | PyFloat _ _ => lit "float"
  | PyStr _ => lit "str"
  | PyList _ => lit "list"
  | PyDict _ => lit "dict"
  end.

(** [bool(v)] *)
Definition truthy (v : pyval) : bool :=
  match v with
  | PyNone => false
  | PyBool b => b
  | PyInt z => negb (Z.eqb z 0)
  | PyFloat m _ => negb (Z.eqb m 0)
  | PyStr s => match s with [] => false | _ => true end
  | PyList l => match l with [] => false | _ => true end
  | PyDict d => match d with [] => false | _ => true end
  end.

(** [a or b] *)
Definition py_or (a b : pyval) : pyval := if truthy a then a else b.

Definition no_attribute (v : pyval) (attr : string) : exn :=
  mk_exn AttributeError
    (lit "'" ++ type_name v ++ lit "' object has no attribute '"
       ++ lit attr ++ lit "'").

Definition not_iterable (v : pyval) : exn :=
  mk_exn TypeError (lit "'" ++ type_name v ++ lit "' object is not iterable").

Fixpoint dict_get (d : list (str * pyval)) (key : str) (default : pyval)
  : pyval :=
  match d with
  | [] => default
  | (k, v) :: r => if str_eqb k key then v else dict_get r key default
  end.

(** [v.get(key, default)]: only a dict has the method. *)
Definition py_get (v : pyval) (key : str) (default : pyval) : result pyval :=
  match v with
  | PyDict d => Ok (dict_get d key default)
  | _ => Raise (no_attribute v "get")
  end.

(** [v.strip()]: only a str has the method. *)
Definition py_strip (v : pyval) : result str :=
  match v with
  | PyStr s => Ok (strip s)
  | _ => Raise (no_attribute v "strip")
  end.

(** The items a [for] loop over [v] visits: the elements of a list, the
    characters of a str, the keys of a dict; other values are not iterable. *)
Definition py_iter (v : pyval) : result (list pyval) :=
  match v with
  | PyList l => Ok l
  | PyStr s => Ok (map (fun c => PyStr [c]) s)
  | PyDict d => Ok (map (fun kv => PyStr (fst kv)) d)
  | _ => Raise (not_iterable v)
  end.

(** ** Query extraction *)

(** The f-string of the source, or the bare title. *)
Definition format_query (uploader title : str) : str :=
  match uploader with
  | [] => title
  | _ => uploader ++ lit " - " ++ title
  end.

Open Scope result_scope.

(** The body of the [for] loop, threading the list [queries]. *)
Definition extract_entry (entry : pyval) (queries : list str)
  : result (list str) :=
  t <~ py_get entry (lit "title") PyNone ;
  title <~ py_strip (py_or t (PyStr [])) ;
  u <~ py_get entry (lit "uploader") PyNone ;
  uploader <~ py_strip (py_or u (PyStr [])) ;
  Ok (match title with
      | [] => queries
      | _ => queries ++ [format_query uploader title]
      end).

Fixpoint extract_loop (entries : list pyval) (queries : list str)
  : result (list str) :=
  match entries with
  | [] => Ok queries
  | entry :: rest =>
      queries' <~ extract_entry entry queries ;
      extract_loop rest queries'
  end.

Definition _extract_sc_queries_from_ydl_json (data : pyval)
  : result (list str) :=
  e <~ py_get data (lit "entries") (PyList []) ;
  entries <~ py_iter (py_or e (PyList [])) ;
  extract_loop entries [].

(** ** The outside world of the resolver

    Each external call the resolver makes has its own arguments within one
    run, so one run of the outside world is a function from the arguments of
    a call to its outcome. A failing [import yt_dlp] is an exception of
    [YoutubeDL_extract_info]. *)

Record CompletedProcess : Type :=
  { returncode : Z; stdout : str; stderr : str }.

Record world : Type :=
  { sys_executable : str;
    YoutubeDL_extract_info : pyval -> str -> result pyval;
    subprocess_run : list str -> result CompletedProcess;
    json_loads : str -> result pyval;
    shutil_which : str -> option str }.

(** What the resolver did to the outside world, in order. *)
Inductive event : Type :=
| ExtractInfo (ydl_opts : pyval) (url : str)
| SubprocessRun (cmd : list str)
| Which (name : str).

(** The list [errors] of the resolver and the trace of its external calls. *)
Record state : Type := mk_state { errors : list str; trace : list event }.

(** Computations that read and write the state and may raise; the state
    survives an exception, as a [try] block needs. *)
Definition M (A : Type) : Type := state -> result A * state.

Definition ret {A} (a : A) : M A := fun st => (Ok a, st).

Definition bind {A B} (m : M A) (k : A -> M B) : M B :=
  fun st =>
    match m st with
    | (Ok a, st') => k a st'
    | (Raise e, st') => (Raise e, st')
    end.

Definition raise {A} (e : exn) : M A := fun st => (Raise e, st).

Definition lift {A} (r : result A) : M A := fun st => (r, st).

(** [try: body except Exception as exc: handler(exc)] *)
Definition try_except {A} (body : M A) (handler : exn -> M A) : M A :=
  fun st =>
    match body st with
    | (Ok a, st') => (Ok a, st')
    | (Raise e, st') => handler e st'
    end.

(** An external call: its outcome is the world's, and it is logged. *)
Definition call {A} (ev : event) (outcome : result A) : M A :=
  fun st => (outcome, mk_state (errors st) (trace st ++ [ev])).

(** [errors = []] *)
Definition errors_init : M unit :=
  fun st => (Ok tt, mk_state [] (trace st)).

(** [errors.append(msg)] *)
Definition errors_append (msg : str) : M unit :=
  fun st => (Ok tt, mk_state (errors st ++ [msg]) (trace st)).

Definition errors_read : M (list str) := fun st => (Ok (errors st), st).

Declare Scope M_scope.
Delimit Scope M_scope with M.
Notation "x <- m ;; k" := (bind m (fun x => k))
  (at level 61, m at next level, right associativity) : M_scope.
Notation "m ;; k" := (bind m (fun _ => k))
  (at level 61, right associativity) : M_scope.
Notation "'try' body 'except' exc => handler" :=
  (try_except body (fun exc => handler))
  (at level 61, body at level 200, exc name, handler at level 200) : M_scope.

(** Truth value of a list of queries ([if q:], [if not q:]). *)
Definition nonempty (q : list str) : bool :=
  match q with [] => false | _ => true end.

(** Truth value of what [shutil.which] gives: a path, or [None]. *)
Definition found (exe : option str) : bool :=
  match exe with
  | Some (_ :: _) => true
  | _ => false
  end.

Definition invalid_url_message : str :=
  lit "The URL does not appear to be a full SoundCloud link. "
  ++ lit "Please paste the entire playlist URL, including https://soundcloud.com/"
  ++ [8230%N].

Definition summary : str := lit "yt-dlp could not extract the SoundCloud set.".

(** ** The resolver *)

Section Resolver.

Variable w : world.

Open Scope M_scope.

(** The options [_python_api] builds for [YoutubeDL]. *)
Definition ydl_opts (flat : bool) : pyval :=
  PyDict [ (lit "skip_download", PyBool true);
           (lit "quiet", PyBool true);
           (lit "extract_flat",
            if flat then PyStr (lit "in_playlist") else PyBool false) ].

(** The inner helper that runs yt-dlp in a subprocess. *)
Definition _extract_with_ydl (sc_url : str) (ydl_cmd : list str) (flat : bool)
  : M (list str) :=
  let cmd :=
    (ydl_cmd ++ (if flat then [lit "--flat-playlist"] else []))
      ++ [lit "-J"; sc_url] in
  proc <- call (SubprocessRun cmd) (subprocess_run w cmd) ;;
  if negb (Z.eqb (returncode proc) 0) then
    raise (mk_exn RuntimeError
             (match strip (stderr proc) with
              | [] => strip (stdout proc)
              | e => e
              end))
  else
    data <- lift (json_loads w (stdout proc)) ;;
    lift (_extract_sc_queries_from_ydl_json data).

(** The inner helper that calls the yt-dlp library. *)
Definition _python_api (sc_url : str) (flat : bool) : M (list str) :=
  data <- call (ExtractInfo (ydl_opts flat) sc_url)
               (YoutubeDL_extract_info w (ydl_opts flat) sc_url) ;;
  lift (_extract_sc_queries_from_ydl_json data).

Definition python_m_yt_dlp : list str :=
  [sys_executable w; lit "-m"; lit "yt_dlp"].

(** [shutil.which(name)], logged. *)
Definition which (name : string) : M (option str) :=
  call (Which (lit name)) (Ok (shutil_which w (lit name))).

(** The last lines of the function: consolidate the errors and raise. *)
Definition raise_collected {A} : M A :=
  errs <- errors_read ;;
  raise (mk_exn RuntimeError (summary ++ join (lit ".") errs)).

(** [get_soundcloud_queries]. A [try] block yields [Some q] where the source
    returns [q] from inside it, and [None] where control leaves the block. *)
Definition get_soundcloud_queries (sc_url : str) : M (list str) :=
  let sc_url := _sanitize_sc_url (strip sc_url) in
  if negb (startswith sc_url (lit "http")) then
    raise (mk_exn ValueError invalid_url_message)
  else
  errors_init ;;
  (* Tier 1: Python API *)
  r1 <- (try
           (q <- _python_api sc_url true ;;
            q <- (if negb (nonempty q) then _python_api sc_url false
                  else ret q) ;;
            if nonempty q then ret (Some q)
            else
              errors_append
                (lit "Python API returned no entries even after full extraction") ;;
              ret None)
         except exc =>
           (errors_append (lit "Python API error: " ++ exn_str exc) ;;
            ret None)) ;;
  match r1 with
  | Some q => ret q
  | None =>
  (* Tier 2: python -m yt_dlp *)
  r2 <- (try
           (q <- _extract_with_ydl sc_url python_m_yt_dlp true ;;
            q <- (if negb (nonempty q)
                  then _extract_with_ydl sc_url python_m_yt_dlp false
                  else ret q) ;;
            if nonempty q then ret (Some q)
            else
              errors_append
                (lit "python -m yt_dlp returned no entries even after full extraction") ;;
              ret None)
         except exc =>
           (errors_append (lit "python -m yt_dlp error: " ++ exn_str exc) ;;
            ret None)) ;;
  match r2 with
  | Some q => ret q
  | None =>
  (* Tier 3: bare executable *)
  e1 <- which "yt-dlp" ;;
  exe <- (if found e1 then ret e1 else which "yt-dlp.exe") ;;
  r3 <- (match exe with
         | Some ((_ :: _) as exe) =>
             try
               (q <- _extract_with_ydl sc_url [exe] true ;;
                q <- (if negb (nonempty q)
                      then _extract_with_ydl sc_url [exe] false
                      else ret q) ;;
                if nonempty q then ret (Some q)
                else
                  errors_append
                    (lit "yt-dlp executable returned no entries even after full extraction") ;;
                  ret None)
             except exc =>
               (errors_append (lit "Executable error: " ++ exn_str exc) ;;
                ret None)
         | _ =>
             errors_append (lit "yt-dlp executable not found on PATH") ;;
             ret None
         end) ;;
  match r3 with
  | Some q => ret q
  | None => raise_collected
  end
  end
  end.

(** One call of the resolver, from an empty trace. *)
Definition resolve (sc_url : str) : result (list str) * state :=
  get_soundcloud_queries sc_url (mk_state [] []).

End Resolver.

(** ** Reading a run of the resolver

    The pure outcome of each attempt, the events it leaves in the trace, and
    the shape shared by the three [try] blocks. *)

Definition log (ev : event) (st : state) : state :=
  mk_state (errors st) (trace st ++ [ev]).

(** The ladder's tiers; the third one runs the executable it located. *)
Inductive tier_id : Type :=
| PythonAPI
| PythonModule
| Executable (exe : str).

Definition ydl_cmd_of (w : world) (t : tier_id) : list str :=
  match t with
  | PythonAPI => []
  | PythonModule => python_m_yt_dlp w
  | Executable exe => [exe]
  end.

Definition cmd_line (sc_url : str) (ydl_cmd : list str) (flat : bool)
  : list str :=
  (ydl_cmd ++ (if flat then [lit "--flat-playlist"] else []))
    ++ [lit "-J"; sc_url].

(** The external call an attempt of tier [t] in mode [flat] makes. *)
Definition attempt_event (w : world) (sc_url : str) (t : tier_id) (flat : bool)
  : event :=
  match t with
  | PythonAPI => ExtractInfo (ydl_opts flat) sc_url
  | _ => SubprocessRun (cmd_line sc_url (ydl_cmd_of w t) flat)
  end.

(** What [_python_api] yields, the trace apart. *)
Definition api_attempt (w : world) (sc_url : str) (flat : bool)
  : result (list str) :=
  data <~ YoutubeDL_extract_info w (ydl_opts flat) sc_url ;
  _extract_sc_queries_from_ydl_json data.

(** What [_extract_with_ydl] yields, the trace apart. *)
Definition cmd_attempt (w : world) (sc_url : str) (ydl_cmd : list str)
  (flat : bool) : result (list str) :=
  proc <~ subprocess_run w (cmd_line sc_url ydl_cmd flat) ;
  if negb (Z.eqb (returncode proc) 0) then
    Raise (mk_exn RuntimeError
             (match strip (stderr proc) with
              | [] => strip (stdout proc)
              | e => e
              end))
  else
    data <~ json_loads w (stdout proc) ;
    _extract_sc_queries_from_ydl_json data.

Definition attempt (w : world) (sc_url : str) (t : tier_id) (flat : bool)
  : result (list str) :=
  match t with
  | PythonAPI => api_attempt w sc_url flat
  | _ => cmd_attempt w sc_url (ydl_cmd_of w t) flat
  end.

(** The reason a tier records when both modes gave no track. *)
Definition empty_reason (t : tier_id) : str :=
  match t with
  | PythonAPI =>
      lit "Python API returned no entries even after full extraction"
  | PythonModule =>
      lit "python -m yt_dlp returned no entries even after full extraction"
  | Executable _ =>
      lit "yt-dlp executable returned no entries even after full extraction"
  end.

(** The reason a tier records when an attempt raised [exc]. *)
Definition error_reason (t : tier_id) (exc : exn) : str :=
  match t with
  | PythonAPI => lit "Python API error: " ++ exn_str exc
  | PythonModule => lit "python -m yt_dlp error: " ++ exn_str exc
  | Executable _ => lit "Executable error: " ++ exn_str exc
  end.

(** The [try] block of a tier, over its attempt function. *)
Definition tier_block (try_mode : bool -> M (list str))
  (empty_msg : str) (error_msg : exn -> str) : M (option (list str)) :=
  (try
     (q <- try_mode true ;;
      q <- (if negb (nonempty q) then try_mode false else ret q) ;;
      if nonempty q then ret (Some q)
      else errors_append empty_msg ;; ret None)
   except exc => (errors_append (error_msg exc) ;; ret None))%M.

(** The attempt function of each tier, as the resolver calls it. *)
Definition try_mode_of (w : world) (u : str) (t : tier_id) : bool -> M (list str) :=
  match t with
  | PythonAPI => _python_api w u
  | _ => _extract_with_ydl w u (ydl_cmd_of w t)
  end.

(** How a tier ends: with queries, or with a recorded reason. *)
Inductive tier_result : Type :=
| Hit (q : list str)
| Miss (reason : str).

(** The end of a tier and the modes it attempted, from the pure outcomes. *)
Definition tier_outcome (w : world) (sc_url : str) (t : tier_id)
  : tier_result * list bool :=
  match attempt w sc_url t true with
  | Raise e => (Miss (error_reason t e), [true])
  | Ok (x :: q) => (Hit (x :: q), [true])
  | Ok [] =>
      match attempt w sc_url t false with
      | Raise e => (Miss (error_reason t e), [true; false])
      | Ok (x :: q) => (Hit (x :: q), [true; false])
      | Ok [] => (Miss (empty_reason t), [true; false])
      end
  end.

(** The URL the resolver works on, and its check. *)
Definition prepared (sc_url : str) : str := _sanitize_sc_url (strip sc_url).

Definition looks_absolute (sc_url : str) : bool :=
  startswith (prepared sc_url) (lit "http").

(** A URL that begins with the scheme of HTTP or of HTTPS. *)
Definition has_http_scheme (s : str) : bool :=
  startswith s (lit "http://") || startswith s (lit "https://").

(** A string that is empty or made of whitespace only. *)
Definition blank (s : str) : bool := forallb isspace s.

(** ** Track records *)

(** A record of a playlist entry: optional title and optional uploader. *)
Record TrackRecord : Type :=
  { title : option str; uploader : option str }.

Definition field (key : string) (v : option str) : list (str * pyval) :=
  match v with
  | Some s => [(lit key, PyStr s)]
  | None => []
  end.

(** The entry of an info-dict that carries the record. *)
Definition entry_of_record (r : TrackRecord) : pyval :=
  PyDict (field "title" (title r) ++ field "uploader" (uploader r)).

Definition info_dict (recs : list TrackRecord) : pyval :=
  PyDict [(lit "entries", PyList (map entry_of_record recs))].

(** A field as it is, an absent field counting as empty. *)
Definition raw (v : option str) : str :=
  match v with
  | Some s => s
  | None => []
  end.

Definition trimmed (v : option str) : str := strip (raw v).

(** A record is skipped when its title is empty or whitespace only. *)
Definition has_title (r : TrackRecord) : bool := negb (blank (raw (title r))).

(** The query of a kept record, as the specification words it, on the
    trimmed fields. *)
Definition query_of_record (r : TrackRecord) : str :=
  match trimmed (uploader r) with
  | [] => trimmed (title r)
  | _ => trimmed (uploader r) ++ lit " - " ++ trimmed (title r)
  end.

(** The characters at which sanitisation cuts. *)
Definition is_mark (c : char) : bool :=
  N.eqb c question_mark || N.eqb c hash_sign.

Fixpoint take_until (p : char -> bool) (s : str) : str :=
  match s with
  | [] => []
  | c :: r => if p c then [] else c :: take_until p r
  end.

(** The part of [url] before its first ['?'] or ['#']. *)
Definition before_first_mark (url : str) : str := take_until is_mark url.

(** The part of [url] from its first ['?'] or ['#'] onward. *)
Fixpoint from_first_mark (url : str) : str :=
  match url with
  | [] => []
  | c :: r => if is_mark c then url else from_first_mark r
  end.

Definition auth_flag : str := lit "--user-auth".

Definition not_found_reason : str := lit "yt-dlp executable not found on PATH".

(** The executable the third tier locates, and the lookups it took. *)
Definition exe_lookup (w : world) : option str * list event :=
  match shutil_which w (lit "yt-dlp") with
  | Some (c :: s) => (Some (c :: s), [Which (lit "yt-dlp")])
  | _ => (shutil_which w (lit "yt-dlp.exe"),
          [Which (lit "yt-dlp"); Which (lit "yt-dlp.exe")])
  end.

Definition events_of (w : world) (sc_url : str) (t : tier_id)
  (modes : list bool) : list event :=
  map (attempt_event w sc_url t) modes.

Definition collected (reasons : list str) : exn :=
  mk_exn RuntimeError (summary ++ join (lit ".") reasons).

(** A run of the resolver in closed form: the ladder over the outcomes of
    the tiers. [resolve_ladder] below proves that [resolve] computes it. *)
Definition ladder (w : world) (sc_url : str) : result (list str) * state :=
  if negb (looks_absolute sc_url) then
    (Raise (mk_exn ValueError invalid_url_message), mk_state [] [])
  else
    let u := prepared sc_url in
    let '(o1, m1) := tier_outcome w u PythonAPI in
    let ev1 := events_of w u PythonAPI m1 in
    match o1 with
    | Hit q => (Ok q, mk_state [] ev1)
    | Miss r1 =>
        let '(o2, m2) := tier_outcome w u PythonModule in
        let ev2 := ev1 ++ events_of w u PythonModule m2 in
        match o2 with
        | Hit q => (Ok q, mk_state [r1] ev2)
        | Miss r2 =>
            let '(exe, lookups) := exe_lookup w in
            match exe with
            | Some ((_ :: _) as exe) =>
                let '(o3, m3) := tier_outcome w u (Executable exe) in
                let ev3 :=
                  ev2 ++ lookups ++ events_of w u (Executable exe) m3 in
                match o3 with
                | Hit q => (Ok q, mk_state [r1; r2] ev3)
                | Miss r3 =>
                    (Raise (collected [r1; r2; r3]),
                     mk_state [r1; r2; r3] ev3)
                end
            | _ =>
                (Raise (collected [r1; r2; not_found_reason]),
                 mk_state [r1; r2; not_found_reason] (ev2 ++ lookups))
            end
        end
    end.

(** The ways a run on an accepted URL [u] ends: a hit in one of the three
    tiers, all three tiers exhausted, or no executable to run. *)
Inductive ladder_run (w : world) (u : str)
  : result (list str) * state -> Prop :=
| run_hit1 q m1 :
    tier_outcome w u PythonAPI = (Hit q, m1) ->
    ladder_run w u (Ok q, mk_state [] (events_of w u PythonAPI m1))
| run_hit2 r1 m1 q m2 :
    tier_outcome w u PythonAPI = (Miss r1, m1) ->
    tier_outcome w u PythonModule = (Hit q, m2) ->
    ladder_run w u
      (Ok q,
       mk_state [r1]
         (events_of w u PythonAPI m1 ++ events_of w u PythonModule m2))
| run_hit3 r1 m1 r2 m2 exe lookups q m3 :
    tier_outcome w u PythonAPI = (Miss r1, m1) ->
    tier_outcome w u PythonModule = (Miss r2, m2) ->
    exe_lookup w = (Some exe, lookups) ->
    found (Some exe) = true ->
    tier_outcome w u (Executable exe) = (Hit q, m3) ->
    ladder_run w u
      (Ok q,
       mk_state [r1; r2]
         ((events_of w u PythonAPI m1 ++ events_of w u PythonModule m2)
            ++ lookups ++ events_of w u (Executable exe) m3))
| run_exhausted r1 m1 r2 m2 exe lookups r3 m3 :
    tier_outcome w u PythonAPI = (Miss r1, m1) ->
    tier_outcome w u PythonModule = (Miss r2, m2) ->
    exe_lookup w = (Some exe, lookups) ->
    found (Some exe) = true ->
    tier_outcome w u (Executable exe) = (Miss r3, m3) ->
    ladder_run w u
      (Raise (collected [r1; r2; r3]),
       mk_state [r1; r2; r3]
         ((events_of w u PythonAPI m1 ++ events_of w u PythonModule m2)
            ++ lookups ++ events_of w u (Executable exe) m3))
| run_not_found r1 m1 r2 m2 exe lookups :
    tier_outcome w u PythonAPI = (Miss r1, m1) ->
    tier_outcome w u PythonModule = (Miss r2, m2) ->
    exe_lookup w = (exe, lookups) ->
    found exe = false ->
    ladder_run w u
      (Raise (collected [r1; r2; not_found_reason]),
       mk_state [r1; r2; not_found_reason]
         ((events_of w u PythonAPI m1 ++ events_of w u PythonModule m2)
            ++ lookups)).

(** The place of a tier in the ladder. *)
Definition tier_rank (t : tier_id) : nat :=
  match t with
  | PythonAPI => 1
  | PythonModule => 2
  | Executable _ => 3
  end.

(** Tier [t] yields the non-empty list [q]: in flat mode, or in full mode
    after a flat mode without tracks. *)
Definition tier_yields (w : world) (u : str) (t : tier_id) (q : list str)
  : Prop :=
  q <> [] /\
  (attempt w u t true = Ok q \/
   attempt w u t true = Ok [] /\ attempt w u t false = Ok q).

(** A reason that tier [t] may record. *)
Definition reason_of (t : tier_id) (r : str) : Prop :=
  r = empty_reason t \/ exists e, r = error_reason t e.

(** The reason tier [t] records when it yields no track, read off the
    outcomes of its attempts: the text of the exception that ended it, or
    the "no entries" text when both modes gave nothing. *)
Definition tier_reason (w : world) (u : str) (t : tier_id) : str :=
  match attempt w u t true with
  | Raise e => error_reason t e
  | Ok [] =>
      match attempt w u t false with
      | Raise e => error_reason t e
      | Ok _ => empty_reason t
      end
  | Ok _ => empty_reason t
  end.

(** The reason of the third tier: that of the executable the lookup gave,
    or the "not found" text when it gave none. *)
Definition executable_reason (w : world) (u : str) : str :=
  match fst (exe_lookup w) with
  | Some ((_ :: _) as exe) => tier_reason w u (Executable exe)
  | _ => not_found_reason
  end.

(** Whether a result is the [ValueError] of the URL check. *)
Definition is_invalid_url (r : result (list str)) : bool :=
  match r with
  | Raise {| exn_cls := ValueError |} => true
  | _ => false
  end.

(** What the resolver does once tier [t] has ended with a reason: the first
    external call of the next tier, if there is one. *)
Definition next_step (w : world) (sc_url : str) (t : tier_id) : list event :=
  match t with
  | PythonAPI => [attempt_event w sc_url PythonModule true]
  | PythonModule => [Which (lit "yt-dlp")]
  | Executable _ => []
  end.

(** ** Sample worlds *)

Definition foo_bar_baz : list TrackRecord :=
  [ {| title := Some (lit "Foo"); uploader := Some (lit "Bar") |};
    {| title := Some (lit "Baz"); uploader := None |} ].

Definition playlist_url : str :=
  lit "https://soundcloud.com/user/playlist?utm_source=clip#frag".

Definition download_error : exn :=
  mk_exn (OtherException (lit "DownloadError")) (lit "HTTP Error 404").

Definition file_not_found : exn :=
  mk_exn (OtherException (lit "FileNotFoundError")) (lit "No such file").

Definition is_flat (opts : pyval) : bool :=
  match opts with
  | PyDict d => truthy (dict_get d (lit "extract_flat") PyNone)
  | _ => false
  end.

(** yt-dlp is nowhere to be found and nothing can be run. *)
Definition world_broken : world :=
  {| sys_executable := lit "/usr/bin/python3";
     YoutubeDL_extract_info := fun _ _ => Raise download_error;
     subprocess_run := fun _ => Raise file_not_found;
     json_loads := fun _ => Ok PyNone;
     shutil_which := fun _ => None |}.


(** The library gives nothing in flat mode and two tracks in full mode. *)
Definition world_flat_empty : world :=
  {| sys_executable := lit "/usr/bin/python3";
     YoutubeDL_extract_info :=
       fun opts _ =>
         if is_flat opts then Ok (info_dict []) else Ok (info_dict foo_bar_baz);
     subprocess_run := fun _ => Raise file_not_found;
     json_loads := fun _ => Ok PyNone;
     shutil_which := fun _ => None |}.

(** The library raises in flat mode and would give two tracks in full mode;
    no other backend is installed. *)
Definition world_flat_raises : world :=
  {| sys_executable := lit "/usr/bin/python3";
     YoutubeDL_extract_info :=
       fun opts _ =>
         if is_flat opts then Raise download_error
         else Ok (info_dict foo_bar_baz);
     subprocess_run := fun _ => Raise file_not_found;
     json_loads := fun _ => Ok PyNone;
     shutil_which := fun _ => None |}.

(** The library is not installed, the module run fails with a message on
    its standard error, and only [yt-dlp.exe] is on the path, where it
    works. *)
Definition world_exe_only : world :=
  {| sys_executable := lit "python.exe";
     YoutubeDL_extract_info :=
       fun _ _ =>
         Raise (mk_exn (OtherException (lit "ModuleNotFoundError"))
                  (lit "No module named 'yt_dlp'"));
     subprocess_run :=
       fun cmd =>
         if str_eqb (hd [] cmd) (lit "python.exe") then
           Ok {| returncode := 1; stdout := [];
                 stderr := lit "python.exe: No module named yt_dlp  " |}
         else
           Ok {| returncode := 0; stdout := lit "{}"; stderr := [] |};
     json_loads := fun _ => Ok (info_dict foo_bar_baz);
     shutil_which :=
       fun name =>
         if str_eqb name (lit "yt-dlp.exe") then Some (lit "C:/bin/yt-dlp.exe")
         else None |}.

(** The executable tier runs what the lookup gave; the other tiers need
    nothing located. *)
Definition located (w : world) (t : tier_id) : Prop :=
  match t with
  | Executable exe => fst (exe_lookup w) = Some exe /\ exe <> []
  | _ => True
  end.

(** The URL an external call is given, if it is given one. *)
Definition event_url (ev : event) : option str :=
  match ev with
  | ExtractInfo _ url => Some url
  | SubprocessRun cmd => Some (last cmd [])
  | Which _ => None
  end.

(** ** Reading an info-dict entry by entry *)

(** A value that [(v or "").strip()] accepts: a str, or anything false. *)
Definition text_like (v : pyval) : bool :=
  match v with
  | PyStr _ => true
  | _ => negb (truthy v)
  end.

(** The text of such a value: the str itself, or the empty str. *)
Definition text_of (v : pyval) : str :=
  match v with
  | PyStr s => s
  | _ => []
  end.

(** An entry the loop body goes through without an exception: a dict whose
    title and uploader are text-like. *)
Definition entry_ok (entry : pyval) : bool :=
  match entry with
  | PyDict d =>
      text_like (dict_get d (lit "title") PyNone)
      && text_like (dict_get d (lit "uploader") PyNone)
  | _ => false
  end.

(** The queries such an entry adds: none, or one. *)
Definition queries_of_entry (entry : pyval) : list str :=
  match entry with
  | PyDict d =>
      match strip (text_of (dict_get d (lit "title") PyNone)) with
      | [] => []
      | t => [format_query
                (strip (text_of (dict_get d (lit "uploader") PyNone))) t]
      end
  | _ => []
  end.

(** ** The window: what happens after a click on the download button

    The functions of the GUI layer that run once the window is built. The
    widgets are read through [desktop]; every call that shows, logs or
    launches something is an event of the session. The worker thread's
    events follow the click's own: how they interleave with the event loop
    is outside the model, and so is an edit of a widget during the run. *)

Module Gui.

(** The window's variables and the machine the worker runs on. The [n]-th
    process launched in a session gives the lines of its output and its
    return code, or [Popen] raises. *)
Record desktop : Type :=
  { backends : world;
    os_makedirs : str -> result unit;
    subprocess_Popen : nat -> list str -> result (list str * Z);
    url_var : str;
    out_var : str;
    bit_var : str;
    service_var : str;
    auth_var : bool }.

Inductive ui_event : Type :=
| External (ev : event)
| MakeDirs (path : str)
| Popen (cmd : list str)
| LogPut (msg : str)
| ShowError (title message : str)
| ShowWarning (title message : str)
| ShowInfo (title message : str)
| ProgressStart
| ProgressStopLater
| ThreadStart (url out_dir service : str) (use_auth : bool)
| ThreadDied (exc : exn).

(** The events so far and the number of processes launched. *)
Record session : Type := mk_session { shown : list ui_event; spawned : nat }.

Definition G (A : Type) : Type := session -> result A * session.

Definition ret {A} (a : A) : G A := fun st => (Ok a, st).

Definition bind {A B} (m : G A) (k : A -> G B) : G B :=
  fun st =>
    match m st with
    | (Ok a, st') => k a st'
    | (Raise e, st') => (Raise e, st')
    end.

Definition raise {A} (e : exn) : G A := fun st => (Raise e, st).

Definition try_except {A} (body : G A) (handler : exn -> G A) : G A :=
  fun st =>
    match body st with
    | (Ok a, st') => (Ok a, st')
    | (Raise e, st') => handler e st'
    end.

Definition emit (ev : ui_event) : G unit :=
  fun st => (Ok tt, mk_session (shown st ++ [ev]) (spawned st)).

Declare Scope G_scope.
Delimit Scope G_scope with G.
Notation "x <- m ;; k" := (bind m (fun x => k))
  (at level 61, m at next level, right associativity) : G_scope.
Notation "m ;; k" := (bind m (fun _ => k))
  (at level 61, right associativity) : G_scope.
Notation "'try' body 'except' exc => handler" :=
  (try_except body (fun exc => handler))
  (at level 61, body at level 200, exc name, handler at level 200) : G_scope.

Open Scope G_scope.

(** [for x in l: body(x)] *)
Fixpoint for_each {A} (l : list A) (body : A -> G unit) : G unit :=
  match l with
  | [] => ret tt
  | x :: rest => body x ;; for_each rest body
  end.

(** [isinstance(exc, <name>)] for the classes the GUI layer catches. *)
Definition is_class (name : string) (exc : exn) : bool :=
  match exn_cls exc with
  | OtherException n => str_eqb n (lit name)
  | _ => false
  end.

(** [str(n)] for a length or an index. *)
Definition str_of_nat (n : nat) : str :=
  lit (NilZero.string_of_uint (Nat.to_uint n)).

Definition DEFAULT_OUT : str := lit "/sdcard/Download/spotdl_output".

Definition newline : str := [10%N].

Definition finished_message : str := [9989%N] ++ lit " Finished".

Definition running_message (cmd : list str) : str :=
  [127939%N] ++ lit " " ++ join (lit " ") cmd.

Definition found_message (n : nat) : str :=
  [8505%N; 65039%N] ++ lit "  Found " ++ str_of_nat n
    ++ lit " tracks in SoundCloud playlist".

Definition track_message (idx total : nat) (qtxt : str) : str :=
  newline ++ [9472%N; 9472%N] ++ lit " " ++ str_of_nat idx ++ lit "/"
    ++ str_of_nat total ++ lit ": " ++ qtxt ++ lit " " ++ [9472%N; 9472%N].

Definition missing_message (missing : list str) : str :=
  newline ++ [128683%N]
    ++ lit " Could not download the following tracks:" ++ newline
    ++ join newline missing.

Section Window.

Variable d : desktop.

(** [log(msg)]: the message is put on the queue. *)
Definition log (msg : str) : G unit := emit (LogPut msg).

(** [subprocess.Popen(cmd, ...)], with what the process will print and
    return. *)
Definition Popen_call (cmd : list str) : G (list str * Z) :=
  fun st =>
    (subprocess_Popen d (spawned st) cmd,
     mk_session (shown st ++ [Popen cmd]) (S (spawned st))).

Definition _stream (cmd : list str) (success : bool) : G bool :=
  p <- (try (p <- Popen_call cmd ;; ret (Some p))
        except exc =>
          (if is_class "FileNotFoundError" exc then
             emit (ShowError (lit "SpotDL missing")
                     (lit "Run `pip install spotdl`.")) ;;
             ret None
           else raise exc)) ;;
  match p with
  | None => ret false
  | Some (lines, returncode) =>
      for_each lines (fun line => log (rstrip line)) ;;
      ret (if success then Z.eqb returncode 0 else true)
  end.

Definition _do_spotify (purl out_dir : str) (use_auth : bool) : G unit :=
  let cmd :=
    build_spotdl_cmd (sys_executable (backends d)) purl out_dir (bit_var d)
      use_auth in
  log (running_message cmd) ;;
  _stream cmd false ;;
  ret tt.

(** The command of one track of a SoundCloud set. *)
Definition track_cmd (out_dir qtxt : str) : list str :=
  build_spotdl_cmd (sys_executable (backends d)) qtxt out_dir (bit_var d)
    false.

(** The loop over [enumerate(queries, 1)], threading [missing]. *)
Fixpoint download_loop (out_dir : str) (total idx : nat) (queries : list str)
  (missing : list str) : G (list str) :=
  match queries with
  | [] => ret missing
  | qtxt :: rest =>
      log (track_message idx total qtxt) ;;
      ok <- _stream (track_cmd out_dir qtxt) true ;;
      download_loop out_dir total (S idx) rest
        (if ok then missing else missing ++ [qtxt])
  end.

(** The call of the resolver, its external calls becoming events. *)
Definition call_resolver (scurl : str) : G (list str) :=
  fun st =>
    let '(r, s) := resolve (backends d) scurl in
    (r, mk_session (shown st ++ map External (trace s)) (spawned st)).

Definition _do_soundcloud (scurl out_dir : str) : G unit :=
  r <- (try (queries <- call_resolver scurl ;; ret (Some queries))
        except exc =>
          (emit (ShowError (lit "SoundCloud")
                   (lit "Error reading playlist:" ++ newline ++ exn_str exc)) ;;
           ret None)) ;;
  match r with
  | None => ret tt
  | Some queries =>
      if negb (nonempty queries) then
        emit (ShowWarning (lit "SoundCloud")
                (lit "No tracks found in this SoundCloud set."))
      else
        log (found_message (length queries)) ;;
        missing <- download_loop out_dir (length queries) 1 queries [] ;;
        if nonempty missing then log (missing_message missing) else ret tt
  end.

Definition run_spotdl (url out_dir service : str) (use_auth : bool)
  : G unit :=
  ready <- (try
              ((fun st =>
                  (os_makedirs d out_dir,
                   mk_session (shown st ++ [MakeDirs out_dir]) (spawned st))) ;;
               ret true)
            except exc =>
              (if is_class "PermissionError" exc then
                 emit (ShowError (lit "Permission")
                         (lit "Cannot write to selected folder.")) ;;
                 emit ProgressStopLater ;;
                 ret false
               else raise exc)) ;;
  if negb ready then ret tt
  else
    (if str_eqb service (lit "Spotify") then _do_spotify url out_dir use_auth
     else _do_soundcloud url out_dir) ;;
    log finished_message ;;
    emit ProgressStopLater ;;
    emit (ShowInfo (lit "Done") (lit "Playlist download completed!")).

(** [threading.Thread(target=..., daemon=True).start()]: the body runs; an
    exception ends the thread and reaches nobody. *)
Definition thread_start (body : G unit) : G unit :=
  fun st =>
    match body st with
    | (Ok _, st') => (Ok tt, st')
    | (Raise e, st') =>
        (Ok tt, mk_session (shown st' ++ [ThreadDied e]) (spawned st'))
    end.

Definition validate_and_go : G unit :=
  let url := strip (url_var d) in
  let svc := service_var d in
  if str_eqb svc (lit "Spotify")
     && negb (contains url (lit "open.spotify.com/playlist/")) then
    emit (ShowError (lit "URL") (lit "Enter a valid Spotify playlist URL."))
  else if str_eqb svc (lit "SoundCloud")
          && negb (contains url (lit "soundcloud.com/")) then
    emit (ShowError (lit "URL") (lit "Enter a valid SoundCloud playlist URL."))
  else
    let out_dir :=
      match strip (out_var d) with
      | [] => DEFAULT_OUT
      | o => o
      end in
    emit ProgressStart ;;
    emit (ThreadStart url out_dir svc (auth_var d)) ;;
    thread_start (run_spotdl url out_dir svc (auth_var d)).

End Window.



(** Whether the launch raises nothing but [FileNotFoundError]. *)
Definition launchable (d : desktop) (n : nat) (cmd : list str) : bool :=
  match subprocess_Popen d n cmd with
  | Ok _ => true
  | Raise exc => is_class "FileNotFoundError" exc
  end.



(** Events a worker never adds. *)
Definition of_worker (ev : ui_event) : bool :=
  match ev with
  | ShowWarning _ _ | ProgressStart | ThreadStart _ _ _ _ | ThreadDied _ =>
      false
  | _ => true
  end.

(** What one launch adds to the session: the launch, then the lines of
    the process, or the error box when the tool is missing. *)
Definition stream_events (d : desktop) (cmd : list str) (n : nat)
  : list ui_event :=
  Popen cmd ::
  match subprocess_Popen d n cmd with
  | Ok (lines, _) => map (fun line => LogPut (rstrip line)) lines
  | Raise exc =>
      if is_class "FileNotFoundError" exc then
        [ShowError (lit "SpotDL missing") (lit "Run `pip install spotdl`.")]
      else []
  end.

(** The folder the worker is given: the trimmed entry, or the default. *)
Definition chosen_out_dir (d : desktop) : str :=
  match strip (out_var d) with
  | [] => DEFAULT_OUT
  | o => o
  end.

(** Whether the click lets the URL through: it holds the marker of the
    selected service. *)
Definition accepted (d : desktop) : bool :=
  let url := strip (url_var d) in
  if str_eqb (service_var d) (lit "Spotify") then
    contains url (lit "open.spotify.com/playlist/")
  else if str_eqb (service_var d) (lit "SoundCloud") then
    contains url (lit "soundcloud.com/")
  else true.

(** The last events of a worker that ran to its end. *)
Definition completion : list ui_event :=
  [ LogPut finished_message; ProgressStopLater;
    ShowInfo (lit "Done") (lit "Playlist download completed!") ].

(** A desktop for the examples: SoundCloud is selected, the URL lacks its
    scheme, every download prints one line and the second one fails. *)
Definition sample_desktop : desktop :=
  {| backends := world_flat_empty;
     os_makedirs := fun _ => Ok tt;
     subprocess_Popen :=
       fun n _ => Ok ([lit "Downloaded  "], if Nat.eqb n 1 then 1 else 0)%Z;
     url_var := lit "  soundcloud.com/user/sets/mix ";
     out_var := lit "   ";
     bit_var := lit "320k";
     service_var := lit "SoundCloud";
     auth_var := false |}.

End Gui.

(** * Properties *)

(** ** Strings *)

Lemma str_eqb_refl (a : str) : str_eqb a a = true.
Proof.
  induction a as [|x a IH]; simpl; [reflexivity|].
  now rewrite N.eqb_refl, IH.
Qed.

Lemma str_eqb_eq (a b : str) : str_eqb a b = true <-> a = b.
Proof.
  split; [|intros ->; apply str_eqb_refl].
  revert b; induction a as [|x a IH]; intros [|y b]; simpl; try easy.
  rewrite andb_true_iff, N.eqb_eq. intros [-> H]. now rewrite (IH _ H).
Qed.

Lemma split_first (sep : char) (s : str) :
  item0 (split sep s) = take_until (fun c => N.eqb c sep) s.
Proof.
  induction s as [|c r IH]; simpl; [reflexivity|].
  destruct (N.eqb c sep); [reflexivity|].
  unfold item0 in IH. destruct (split sep r) as [|f fs]; simpl in *;
    now rewrite <- IH.
Qed.

Lemma take_until_twice (p q : char -> bool) (s : str) :
  take_until p (take_until q s) = take_until (fun c => q c || p c) s.
Proof.
  induction s as [|c r IH]; simpl; [reflexivity|].
  destruct (q c); simpl; [reflexivity|].
  destruct (p c); [reflexivity|]. now rewrite IH.
Qed.

Lemma sanitize_before_first_mark (url : str) :
  _sanitize_sc_url url = before_first_mark url.
Proof.
  unfold _sanitize_sc_url, before_first_mark.
  rewrite !split_first, take_until_twice. reflexivity.
Qed.

Lemma take_until_clean (p : char -> bool) (s : str) :
  existsb p (take_until p s) = false.
Proof.
  induction s as [|c r IH]; simpl; [reflexivity|].
  destruct (p c) eqn:E; simpl; [reflexivity|]. now rewrite E.
Qed.

Lemma take_until_fixed (p : char -> bool) (s : str) :
  existsb p s = false -> take_until p s = s.
Proof.
  induction s as [|c r IH]; simpl; [reflexivity|].
  rewrite orb_false_iff. intros [-> H]. now rewrite IH.
Qed.

Lemma before_from_first_mark (url : str) :
  url = before_first_mark url ++ from_first_mark url.
Proof.
  unfold before_first_mark.
  induction url as [|c r IH]; simpl; [reflexivity|].
  destruct (is_mark c); simpl; [reflexivity|]. now rewrite <- IH.
Qed.

Lemma from_first_mark_head (url : str) :
  from_first_mark url = [] \/
  exists c r, from_first_mark url = c :: r /\
              (c = question_mark \/ c = hash_sign).
Proof.
  induction url as [|c r IH]; simpl; [now left|].
  destruct (is_mark c) eqn:E; [|assumption].
  right. exists c, r. split; [reflexivity|].
  unfold is_mark in E. apply orb_true_iff in E.
  now rewrite !N.eqb_eq in E.
Qed.

(** C5. Sanitisation keeps exactly the part of the URL before its first
    ['?'] or ['#'], whichever comes first: the URL is the sanitised string
    followed by a rest that is empty or begins with one of the two marks,
    and the sanitised string holds neither mark. Sanitising is idempotent,
    and the URL of the scenario sanitises to the playlist address. *)
Theorem sanitize_cuts_at_first_mark (url : str) :
  _sanitize_sc_url url = before_first_mark url
  /\ url = _sanitize_sc_url url ++ from_first_mark url
  /\ (from_first_mark url = [] \/
      exists c r, from_first_mark url = c :: r /\
                  (c = question_mark \/ c = hash_sign))
  /\ existsb is_mark (_sanitize_sc_url url) = false
  /\ _sanitize_sc_url (_sanitize_sc_url url) = _sanitize_sc_url url
  /\ _sanitize_sc_url playlist_url
     = lit "https://soundcloud.com/user/playlist".
Proof.
  rewrite !sanitize_before_first_mark. repeat split.
  - apply before_from_first_mark.
  - apply from_first_mark_head.
  - apply take_until_clean.
  - apply take_until_fixed, take_until_clean.
Qed.

(** ** The command builder *)

Ltac eval_flag_tests :=
  repeat match goal with
         | |- context [str_eqb auth_flag (lit ?s)] =>
             let v := eval vm_compute in (str_eqb auth_flag (lit s)) in
             change (str_eqb auth_flag (lit s)) with v
         end.

(** C6, as stated, fails: with the authentication flag off, a query that is
    itself the text of the flag (a track titled so) puts the flag among the
    arguments. *)
Lemma build_spotdl_cmd_flag_without_auth :
  let cmd :=
    build_spotdl_cmd (lit "/usr/bin/python3") auth_flag (lit "/tmp")
      (lit "128k") false in
  mem auth_flag cmd = true /\ ~ mem auth_flag cmd = false.
Proof. split; [reflexivity|discriminate]. Qed.

(** C6, amended. The command is the eleven fixed arguments, with
    [--format m4a] and [--bitrate <bitrate>] at fixed places, followed by
    [--user-auth] exactly when the flag is true. Its last argument is
    [--user-auth] when the flag is true and the bitrate otherwise, and
    [--user-auth] occurs among the arguments exactly when the flag is true
    or one of the four strings given by the caller is that very text. *)
Theorem build_spotdl_cmd_shape (exe query out_dir bitrate : str)
  (user_auth : bool) :
  let cmd := build_spotdl_cmd exe query out_dir bitrate user_auth in
  cmd = [ exe; lit "-m"; lit "spotdl"; lit "download"; query;
          lit "--output"; out_dir; lit "--format"; lit "m4a";
          lit "--bitrate"; bitrate ]
        ++ (if user_auth then [auth_flag] else [])
  /\ nth_error cmd 7 = Some (lit "--format")
  /\ nth_error cmd 8 = Some (lit "m4a")
  /\ nth_error cmd 9 = Some (lit "--bitrate")
  /\ nth_error cmd 10 = Some bitrate
  /\ length cmd = (if user_auth then 12 else 11)
  /\ last cmd [] = (if user_auth then auth_flag else bitrate)
  /\ mem auth_flag cmd
     = user_auth || mem auth_flag [exe; query; out_dir; bitrate].
Proof.
  destruct user_auth; cbn [build_spotdl_cmd app]; repeat split;
    unfold mem; cbn [existsb]; eval_flag_tests;
    rewrite ?str_eqb_refl;
    destruct (str_eqb auth_flag exe), (str_eqb auth_flag query),
      (str_eqb auth_flag out_dir), (str_eqb auth_flag bitrate); reflexivity.
Qed.

(** ** Trimming *)

Lemma forallb_rev (p : char -> bool) (s : str) :
  forallb p (rev s) = forallb p s.
Proof.
  induction s as [|c r IH]; simpl; [reflexivity|].
  rewrite forallb_app, IH. simpl. rewrite andb_true_r. apply andb_comm.
Qed.

Lemma dropwhile_all (p : char -> bool) (s : str) :
  forallb p s = true -> dropwhile p s = [].
Proof.
  induction s as [|c r IH]; simpl; [reflexivity|].
  destruct (p c); simpl; [assumption|discriminate].
Qed.

Lemma dropwhile_head (p : char -> bool) (s : str) :
  forallb p (dropwhile p s) = true -> dropwhile p s = [].
Proof.
  induction s as [|c r IH]; simpl; [reflexivity|].
  destruct (p c) eqn:E; [assumption|]. simpl. now rewrite E.
Qed.

Lemma dropwhile_nil (p : char -> bool) (s : str) :
  dropwhile p s = [] -> forallb p s = true.
Proof.
  induction s as [|c r IH]; simpl; [reflexivity|].
  destruct (p c); [assumption|discriminate].
Qed.

Lemma blank_strip (s : str) : blank (strip s) = true -> strip s = [].
Proof.
  unfold blank, strip, rstrip. rewrite forallb_rev. intros H.
  now rewrite (dropwhile_head _ _ H).
Qed.

Lemma strip_blank (s : str) : blank s = true -> strip s = [].
Proof.
  unfold blank, strip, rstrip, lstrip. intros H.
  now rewrite (dropwhile_all _ _ H).
Qed.

Lemma strip_nil_blank (s : str) : strip s = [] -> blank s = true.
Proof.
  unfold blank, strip, rstrip, lstrip. intros H.
  apply dropwhile_nil.
  apply (f_equal (@rev char)) in H. rewrite rev_involutive in H. simpl in H.
  apply dropwhile_nil in H. rewrite forallb_rev in H.
  now apply dropwhile_head.
Qed.

Lemma blank_strip_false (s : str) :
  blank (strip s) = false <-> strip s <> [].
Proof.
  split.
  - intros H E. now rewrite E in H.
  - intros H. destruct (blank (strip s)) eqn:E; [|reflexivity].
    now apply blank_strip in E.
Qed.

Lemma blank_app (a b : str) : blank (a ++ b) = blank a && blank b.
Proof. apply forallb_app. Qed.

Lemma format_query_not_blank (uploader title : str) :
  blank title = false -> blank (format_query uploader title) = false.
Proof.
  intros H. destruct uploader as [|c u]; [assumption|].
  unfold format_query. rewrite !blank_app, H. now rewrite !andb_false_r.
Qed.

(** ** Query extraction *)

Ltac eval_key_tests :=
  repeat match goal with
         | |- context [str_eqb (lit ?a) (lit ?b)] =>
             let v := eval vm_compute in (str_eqb (lit a) (lit b)) in
             change (str_eqb (lit a) (lit b)) with v
         end.

Lemma blank_raw_trimmed (v : option str) :
  blank (raw v) = match trimmed v with [] => true | _ => false end.
Proof.
  unfold trimmed. destruct (strip (raw v)) eqn:E.
  - now apply strip_nil_blank.
  - destruct (blank (raw v)) eqn:B; [|reflexivity].
    apply strip_blank in B. congruence.
Qed.

Lemma extract_entry_record (r : TrackRecord) (queries : list str) :
  extract_entry (entry_of_record r) queries
  = Ok (if has_title r then queries ++ [query_of_record r] else queries).
Proof.
  destruct r as [t u].
  unfold extract_entry, entry_of_record, has_title, query_of_record,
    format_query; cbn [title uploader].
  rewrite blank_raw_trimmed.
  assert (Ht : py_get (PyDict (field "title" t ++ field "uploader" u))
                 (lit "title") PyNone
               = Ok (match t with Some s => PyStr s | None => PyNone end)).
  { destruct t as [s|], u as [s'|]; unfold field; simpl; eval_key_tests;
      reflexivity. }
  assert (Hu : py_get (PyDict (field "title" t ++ field "uploader" u))
                 (lit "uploader") PyNone
               = Ok (match u with Some s => PyStr s | None => PyNone end)).
  { destruct t as [s|], u as [s'|]; unfold field; simpl; eval_key_tests;
      reflexivity. }
  rewrite Ht, Hu. cbn [rbind].
  assert (Hs : forall v : option str,
             py_strip (py_or (match v with Some s => PyStr s | None => PyNone end)
                         (PyStr []))
             = Ok (trimmed v)).
  { intros [[|c s]|]; reflexivity. }
  rewrite !Hs. cbn [rbind].
  destruct (trimmed t); reflexivity.
Qed.

Lemma extract_loop_records (recs : list TrackRecord) (queries : list str) :
  extract_loop (map entry_of_record recs) queries
  = Ok (queries ++ map query_of_record (filter has_title recs)).
Proof.
  revert queries. induction recs as [|r recs IH]; intros queries; simpl.
  - now rewrite app_nil_r.
  - rewrite extract_entry_record. cbn [rbind]. rewrite IH.
    destruct (has_title r); simpl; [|reflexivity].
    now rewrite <- app_assoc.
Qed.

Lemma extract_info_dict (recs : list TrackRecord) :
  _extract_sc_queries_from_ydl_json (info_dict recs)
  = Ok (map query_of_record (filter has_title recs)).
Proof.
  unfold _extract_sc_queries_from_ydl_json, info_dict.
  cbn [py_get dict_get]. rewrite str_eqb_refl. cbn [rbind].
  replace (py_iter (py_or (PyList (map entry_of_record recs)) (PyList [])))
    with (Ok (map entry_of_record recs)) by (destruct recs; reflexivity).
  cbn [rbind]. apply extract_loop_records.
Qed.

(** C4. On every list of track records, extraction yields the queries of
    the records whose title is not empty or whitespace only, in the order of
    the input: trimmed uploader, [" - "], trimmed title when the trimmed
    uploader is not empty, the trimmed title alone otherwise. The scenario
    of the specification yields ["Bar - Foo"; "Baz"]. *)
Theorem extract_queries_of_records (recs : list TrackRecord) :
  _extract_sc_queries_from_ydl_json (info_dict recs)
  = Ok (map query_of_record (filter has_title recs))
  /\ _extract_sc_queries_from_ydl_json (info_dict foo_bar_baz)
     = Ok [lit "Bar - Foo"; lit "Baz"].
Proof.
  split; [apply extract_info_dict|].
  rewrite extract_info_dict. reflexivity.
Qed.

Lemma dropwhile_head_false (p : char -> bool) (s : str) (c : char) (r : str) :
  dropwhile p s = c :: r -> p c = false.
Proof.
  induction s as [|x s IH]; simpl; [discriminate|].
  destruct (p x) eqn:E; [assumption|]. intros H. now inversion H; subst.
Qed.

Lemma dropwhile_suffix (p : char -> bool) (s : str) :
  exists pre, s = pre ++ dropwhile p s.
Proof.
  induction s as [|x s [pre IH]]; simpl; [now exists []|].
  destruct (p x).
  - exists (x :: pre). simpl. now rewrite <- IH.
  - now exists [].
Qed.

Lemma rstrip_prefix (s : str) : exists rest, s = rstrip s ++ rest.
Proof.
  unfold rstrip. destruct (dropwhile_suffix isspace (rev s)) as [pre H].
  exists (rev pre). rewrite <- rev_app_distr, <- H. now rewrite rev_involutive.
Qed.

Lemma strip_head (s : str) (c : char) (r : str) :
  strip s = c :: r -> isspace c = false.
Proof.
  unfold strip. intros H.
  destruct (rstrip_prefix (lstrip s)) as [rest E]. rewrite H in E.
  apply (dropwhile_head_false isspace s c (r ++ rest) E).
Qed.

(** C10. A record whose title is not blank and whose uploader is present but
    made of whitespace only yields the trimmed title alone, whatever was
    collected before it, and that query does not begin with [" - "]. With
    any uploader, the query is built from the trimmed uploader and the
    trimmed title. *)
Theorem whitespace_uploader_is_absent (t u : str) (queries : list str) :
  blank t = false ->
  blank u = true ->
  let r := {| title := Some t; uploader := Some u |} in
  extract_entry (entry_of_record r) queries = Ok (queries ++ [strip t])
  /\ _extract_sc_queries_from_ydl_json (info_dict [r]) = Ok [strip t]
  /\ startswith (strip t) (lit " - ") = false
  /\ forall u' : str,
       extract_entry
         (entry_of_record {| title := Some t; uploader := Some u' |}) queries
       = Ok (queries ++ [format_query (strip u') (strip t)]).
Proof.
  intros Ht Hu r.
  assert (Hgen : forall u' : str,
             extract_entry
               (entry_of_record {| title := Some t; uploader := Some u' |})
               queries
             = Ok (queries ++ [format_query (strip u') (strip t)])).
  { intros u'. rewrite extract_entry_record.
    unfold has_title, query_of_record, format_query, trimmed; simpl.
    now rewrite Ht. }
  assert (Hq : query_of_record r = strip t).
  { unfold query_of_record, trimmed, r; simpl. now rewrite (strip_blank _ Hu). }
  repeat split.
  - unfold r. rewrite Hgen. now rewrite (strip_blank _ Hu).
  - rewrite (extract_info_dict [r]). simpl.
    unfold has_title, r at 1; simpl. rewrite Ht. simpl. now rewrite Hq.
  - destruct (strip t) as [|c s] eqn:E; [reflexivity|].
    apply strip_head in E. change (lit " - ") with [32; 45; 32]%N.
    cbn [startswith]. destruct (N.eqb_spec 32 c) as [<-|]; [discriminate|reflexivity].
  - exact Hgen.
Qed.

(** An instance: the title [" Foo "] with the uploader ["   "] yields
    ["Foo"]. *)
Lemma whitespace_uploader_is_absent_witness :
  blank (lit " Foo ") = false /\ blank (lit "   ") = true /\
  _extract_sc_queries_from_ydl_json
    (info_dict [{| title := Some (lit " Foo "); uploader := Some (lit "   ") |}])
  = Ok [lit "Foo"].
Proof.
  split; [reflexivity|]. split; [reflexivity|].
  apply (whitespace_uploader_is_absent (lit " Foo ") (lit "   ") []);
    reflexivity.
Defined.

(** Every query that extraction yields holds a character that is not
    whitespace, on any info-dict. *)
Lemma py_strip_Ok (v : pyval) (x : str) :
  py_strip v = Ok x -> exists s, x = strip s.
Proof. destruct v; simpl; try discriminate. intros [= <-]. now exists s. Qed.

Lemma extract_entry_not_blank (entry : pyval) (queries out : list str) :
  extract_entry entry queries = Ok out ->
  Forall (fun q => blank q = false) queries ->
  Forall (fun q => blank q = false) out.
Proof.
  unfold extract_entry. intros H Hq.
  destruct (py_get entry (lit "title") PyNone) as [t|]; [|discriminate].
  cbn [rbind] in H.
  destruct (py_strip (py_or t (PyStr []))) as [tt|] eqn:Et; [|discriminate].
  cbn [rbind] in H.
  destruct (py_get entry (lit "uploader") PyNone) as [u|]; [|discriminate].
  cbn [rbind] in H.
  destruct (py_strip (py_or u (PyStr []))) as [uu|]; [|discriminate].
  cbn [rbind] in H. injection H as <-.
  destruct tt as [|c tt]; [assumption|].
  apply Forall_app. split; [assumption|].
  constructor; [|constructor].
  apply format_query_not_blank.
  apply py_strip_Ok in Et. destruct Et as [s Es]. rewrite Es.
  apply blank_strip_false. now rewrite <- Es.
Qed.

Lemma extract_loop_not_blank (entries : list pyval) (queries out : list str) :
  extract_loop entries queries = Ok out ->
  Forall (fun q => blank q = false) queries ->
  Forall (fun q => blank q = false) out.
Proof.
  revert queries. induction entries as [|e entries IH]; intros queries; simpl.
  - now intros [= <-].
  - destruct (extract_entry e queries) as [queries'|] eqn:E; [|discriminate].
    cbn [rbind]. intros H Hq. apply (IH _ H).
    eapply extract_entry_not_blank; eassumption.
Qed.

Lemma extract_not_blank (data : pyval) (out : list str) :
  _extract_sc_queries_from_ydl_json data = Ok out ->
  Forall (fun q => blank q = false) out.
Proof.
  unfold _extract_sc_queries_from_ydl_json.
  destruct (py_get data (lit "entries") (PyList [])) as [e|]; [|discriminate].
  cbn [rbind].
  destruct (py_iter (py_or e (PyList []))) as [entries|]; [|discriminate].
  cbn [rbind]. intros H. eapply extract_loop_not_blank; [eassumption|].
  constructor.
Qed.

(** ** Runs of the resolver *)

Section Runs.

Variable w : world.

Lemma _python_api_run (u : str) (flat : bool) (st : state) :
  _python_api w u flat st
  = (attempt w u PythonAPI flat, log (attempt_event w u PythonAPI flat) st).
Proof.
  unfold _python_api, attempt, api_attempt, attempt_event, bind, call, lift, log.
  destruct (YoutubeDL_extract_info w (ydl_opts flat) u); reflexivity.
Qed.

Lemma _extract_with_ydl_run (u : str) (ydl_cmd : list str) (flat : bool)
  (st : state) :
  _extract_with_ydl w u ydl_cmd flat st
  = (cmd_attempt w u ydl_cmd flat,
     log (SubprocessRun (cmd_line u ydl_cmd flat)) st).
Proof.
  unfold _extract_with_ydl, cmd_attempt, cmd_line, bind, call, lift, raise, log.
  destruct (subprocess_run w _) as [proc|e]; [|reflexivity]. cbn [rbind].
  destruct (negb (returncode proc =? 0)%Z); [reflexivity|].
  destruct (json_loads w (stdout proc)); reflexivity.
Qed.

Lemma try_mode_run (u : str) (t : tier_id) (flat : bool) (st : state) :
  try_mode_of w u t flat st
  = (attempt w u t flat, log (attempt_event w u t flat) st).
Proof.
  destruct t; simpl; [apply _python_api_run| |]; apply _extract_with_ydl_run.
Qed.

(** A tier's [try] block ends as [tier_outcome] says: it never raises, it
    logs the attempts it made, and it records one reason unless it hit. *)
Lemma tier_block_run (u : str) (t : tier_id) (st : state) :
  tier_block (try_mode_of w u t) (empty_reason t) (error_reason t) st
  = (Ok (match fst (tier_outcome w u t) with
         | Hit q => Some q
         | Miss _ => None
         end),
     mk_state
       (errors st ++ match fst (tier_outcome w u t) with
                     | Hit _ => []
                     | Miss r => [r]
                     end)
       (trace st ++ events_of w u t (snd (tier_outcome w u t)))).
Proof.
  unfold tier_block, tier_outcome, try_except, bind, events_of.
  rewrite try_mode_run.
  destruct (attempt w u t true) as [[|x q]|e]; cbn -[attempt attempt_event].
  - rewrite try_mode_run.
    destruct (attempt w u t false) as [[|x q]|e];
      cbn -[attempt attempt_event]; unfold log; cbn [errors trace];
      rewrite <- ?app_assoc, ?app_nil_r; reflexivity.
  - unfold log; cbn [errors trace]. now rewrite app_nil_r.
  - reflexivity.
Qed.

End Runs.

Section Ladder.

Variable w : world.

Open Scope M_scope.

(** The three [try] blocks of the resolver are instances of [tier_block]. *)
Lemma get_soundcloud_queries_tiers (sc_url : str) :
  get_soundcloud_queries w sc_url
  = let u := prepared sc_url in
    if negb (startswith u (lit "http")) then
      raise (mk_exn ValueError invalid_url_message)
    else
      errors_init ;;
      r1 <- tier_block (try_mode_of w u PythonAPI)
              (empty_reason PythonAPI) (error_reason PythonAPI) ;;
      match r1 with
      | Some q => ret q
      | None =>
          r2 <- tier_block (try_mode_of w u PythonModule)
                  (empty_reason PythonModule) (error_reason PythonModule) ;;
          match r2 with
          | Some q => ret q
          | None =>
              e1 <- which w "yt-dlp" ;;
              exe <- (if found e1 then ret e1 else which w "yt-dlp.exe") ;;
              r3 <- match exe with
                    | Some ((_ :: _) as exe) =>
                        tier_block (try_mode_of w u (Executable exe))
                          (empty_reason (Executable exe))
                          (error_reason (Executable exe))
                    | _ => errors_append not_found_reason ;; ret None
                    end ;;
              match r3 with
              | Some q => ret q
              | None => raise_collected
              end
          end
      end.
Proof. reflexivity. Qed.

Lemma third_tier_run (u : str) (exe : option str) (st : state) :
  (r3 <- match exe with
         | Some ((_ :: _) as exe) =>
             tier_block (try_mode_of w u (Executable exe))
               (empty_reason (Executable exe))
               (error_reason (Executable exe))
         | _ => errors_append not_found_reason ;; ret None
         end ;;
   match r3 with
   | Some q => ret q
   | None => raise_collected
   end) st
  = match exe with
    | Some ((_ :: _) as exe) =>
        let '(o3, m3) := tier_outcome w u (Executable exe) in
        let ev3 := trace st ++ events_of w u (Executable exe) m3 in
        match o3 with
        | Hit q => (Ok q, mk_state (errors st) ev3)
        | Miss r3 =>
            (Raise (collected (errors st ++ [r3])),
             mk_state (errors st ++ [r3]) ev3)
        end
    | _ =>
        (Raise (collected (errors st ++ [not_found_reason])),
         mk_state (errors st ++ [not_found_reason]) (trace st))
    end.
Proof.
  destruct exe as [[|c s]|]; unfold bind at 1; try reflexivity.
  rewrite tier_block_run.
  destruct (tier_outcome w u (Executable (c :: s))) as [[q|r] m];
    cbn [fst snd]; [now rewrite app_nil_r|reflexivity].
Qed.

Lemma resolve_ladder (sc_url : str) : resolve w sc_url = ladder w sc_url.
Proof.
  unfold resolve. rewrite get_soundcloud_queries_tiers.
  unfold ladder, looks_absolute. cbv zeta.
  destruct (startswith (prepared sc_url) (lit "http")); [|reflexivity].
  cbn [negb]. set (u := prepared sc_url).
  unfold bind at 1. cbn [errors_init trace].
  unfold bind at 1. rewrite tier_block_run.
  destruct (tier_outcome w u PythonAPI) as [[q1|r1] m1]; cbn [fst snd];
    [reflexivity|].
  unfold bind at 1. rewrite tier_block_run.
  destruct (tier_outcome w u PythonModule) as [[q2|r2] m2]; cbn [fst snd];
    [reflexivity|].
  cbn [app errors trace].
  unfold exe_lookup, which, bind at 1, call at 1, found.
  cbn [errors trace].
  assert (Hthird : forall (exe : option str) (st : state) rhs,
             rhs = match exe with
                   | Some ((_ :: _) as exe) =>
                       let '(o3, m3) := tier_outcome w u (Executable exe) in
                       let ev3 := trace st ++ events_of w u (Executable exe) m3 in
                       match o3 with
                       | Hit q => (Ok q, mk_state (errors st) ev3)
                       | Miss r3 =>
                           (Raise (collected (errors st ++ [r3])),
                            mk_state (errors st ++ [r3]) ev3)
                       end
                   | _ =>
                       (Raise (collected (errors st ++ [not_found_reason])),
                        mk_state (errors st ++ [not_found_reason]) (trace st))
                   end ->
             (r3 <- match exe with
                    | Some ((_ :: _) as exe) =>
                        tier_block (try_mode_of w u (Executable exe))
                          (empty_reason (Executable exe))
                          (error_reason (Executable exe))
                    | _ => errors_append not_found_reason ;; ret None
                    end ;;
              match r3 with
              | Some q => ret q
              | None => raise_collected
              end) st = rhs).
  { intros exe st rhs ->. apply third_tier_run. }
  destruct (shutil_which w (lit "yt-dlp")) as [[|c s]|].
  - apply (Hthird (shutil_which w (lit "yt-dlp.exe"))).
    cbn [errors trace app].
    destruct (shutil_which w (lit "yt-dlp.exe")) as [[|c s]|];
      rewrite <- ?app_assoc; try reflexivity.
    destruct (tier_outcome w u (Executable (c :: s))) as [[q|r] m];
      rewrite <- ?app_assoc; reflexivity.
  - apply (Hthird (Some (c :: s))).
    cbn [errors trace app].
    destruct (tier_outcome w u (Executable (c :: s))) as [[q|r] m];
      rewrite <- ?app_assoc; reflexivity.
  - apply (Hthird (shutil_which w (lit "yt-dlp.exe"))).
    cbn [errors trace app].
    destruct (shutil_which w (lit "yt-dlp.exe")) as [[|c s]|];
      rewrite <- ?app_assoc; try reflexivity.
    destruct (tier_outcome w u (Executable (c :: s))) as [[q|r] m];
      rewrite <- ?app_assoc; reflexivity.
Qed.

End Ladder.

(** ** The shape of a run *)

Section Shape.

Variable w : world.

Lemma resolve_run (sc_url : str) :
  looks_absolute sc_url = true ->
  ladder_run w (prepared sc_url) (resolve w sc_url).
Proof.
  intros Hvalid. rewrite resolve_ladder. unfold ladder. rewrite Hvalid.
  cbn [negb]. set (u := prepared sc_url).
  destruct (tier_outcome w u PythonAPI) as [[q1|r1] m1] eqn:E1;
    [now apply run_hit1|].
  destruct (tier_outcome w u PythonModule) as [[q2|r2] m2] eqn:E2;
    [now eapply run_hit2|].
  destruct (exe_lookup w) as [[[|c s]|] lookups] eqn:El;
    try (now eapply run_not_found; eauto).
  destruct (tier_outcome w u (Executable (c :: s))) as [[q3|r3] m3] eqn:E3;
    [eapply run_hit3|eapply run_exhausted]; eauto.
Qed.

Lemma resolve_rejects (sc_url : str) :
  looks_absolute sc_url = false ->
  resolve w sc_url
  = (Raise (mk_exn ValueError invalid_url_message), mk_state [] []).
Proof.
  intros H. rewrite resolve_ladder. unfold ladder. now rewrite H.
Qed.

Lemma tier_outcome_spec (u : str) (t : tier_id) :
  match attempt w u t true with
  | Raise e => tier_outcome w u t = (Miss (error_reason t e), [true])
  | Ok (x :: q) => tier_outcome w u t = (Hit (x :: q), [true])
  | Ok [] =>
      match attempt w u t false with
      | Raise e =>
          tier_outcome w u t = (Miss (error_reason t e), [true; false])
      | Ok (x :: q) => tier_outcome w u t = (Hit (x :: q), [true; false])
      | Ok [] => tier_outcome w u t = (Miss (empty_reason t), [true; false])
      end
  end.
Proof.
  unfold tier_outcome.
  destruct (attempt w u t true) as [[|x q]|e]; try reflexivity.
  destruct (attempt w u t false) as [[|x q]|e]; reflexivity.
Qed.

Lemma tier_modes (u : str) (t : tier_id) :
  snd (tier_outcome w u t) = [true] \/
  snd (tier_outcome w u t) = [true; false].
Proof.
  unfold tier_outcome.
  destruct (attempt w u t true) as [[|x q]|e]; simpl; auto.
  destruct (attempt w u t false) as [[|x q]|e]; simpl; auto.
Qed.

Lemma tier_hit_nonempty (u : str) (t : tier_id) (q : list str)
  (m : list bool) :
  tier_outcome w u t = (Hit q, m) -> q <> [].
Proof.
  unfold tier_outcome.
  destruct (attempt w u t true) as [[|x q']|e]; try (intros [= <- _]; discriminate);
    try discriminate.
  destruct (attempt w u t false) as [[|x q']|e];
    try (intros [= <- _]; discriminate); discriminate.
Qed.

Lemma attempt_event_inj (u : str) (t t' : tier_id) (f f' : bool) :
  attempt_event w u t f = attempt_event w u t' f' -> t = t' /\ f = f'.
Proof.
  destruct t, t', f, f'; unfold attempt_event, cmd_line, ydl_cmd_of,
    python_m_yt_dlp, ydl_opts; cbn [app]; intros H; split;
    congruence.
Qed.

Lemma in_events_of (u : str) (t t' : tier_id) (f : bool) (m : list bool) :
  In (attempt_event w u t f) (events_of w u t' m) <-> t = t' /\ In f m.
Proof.
  unfold events_of. rewrite in_map_iff. split.
  - intros (f' & E & Hin). apply attempt_event_inj in E.
    destruct E as [-> ->]. auto.
  - intros [-> Hin]. now exists f.
Qed.

Lemma which_in_events_of (u name : str) (t : tier_id) (m : list bool) :
  ~ In (Which name) (events_of w u t m).
Proof.
  unfold events_of. rewrite in_map_iff. intros (f & E & _).
  destruct t; discriminate.
Qed.

Lemma attempt_in_lookups (u : str) (t : tier_id) (f : bool) :
  ~ In (attempt_event w u t f) (snd (exe_lookup w)).
Proof.
  unfold exe_lookup.
  destruct (shutil_which w (lit "yt-dlp")) as [[|c s]|]; simpl;
    destruct t; intuition discriminate.
Qed.

Lemma first_lookup : In (Which (lit "yt-dlp")) (snd (exe_lookup w)).
Proof.
  unfold exe_lookup.
  destruct (shutil_which w (lit "yt-dlp")) as [[|c s]|]; simpl; auto.
Qed.

End Shape.

(** ** Claims on the tiers *)

Section TierClaims.

Variable w : world.

Lemma tier_modes_true (u : str) (t : tier_id) (o : tier_result)
  (m : list bool) :
  tier_outcome w u t = (o, m) -> In true m.
Proof.
  intros H. destruct (tier_modes w u t) as [E|E]; rewrite H in E;
    simpl in E; subst; simpl; auto.
Qed.

Ltac lookup_facts u t :=
  match goal with
  | El : exe_lookup w = (_, _) |- _ =>
      let N1 := fresh "NL" in
      let N2 := fresh "NL" in
      let F := fresh "FL" in
      pose proof (attempt_in_lookups w u t true) as N1;
      pose proof (attempt_in_lookups w u t false) as N2;
      pose proof (first_lookup w) as F;
      rewrite El in N1, N2, F; cbn [snd] in N1, N2, F
  | _ => idtac
  end.

Ltac mode_facts :=
  repeat match goal with
         | H : tier_outcome w ?u ?t = (_, ?m) |- _ =>
             lazymatch goal with
             | _ : In true m |- _ => fail
             | _ => pose proof (tier_modes_true _ _ _ _ H)
             end
         end.

Ltac which_tier :=
  repeat match goal with
         | H : _ \/ _ |- _ => destruct H
         | H : _ /\ _ |- _ => destruct H
         end;
  try contradiction; subst.

Ltac settle_outcome S :=
  match type of S with
  | tier_outcome w ?u ?T = _ =>
      match goal with
      | H : tier_outcome w u T = _ |- _ =>
          rewrite H in S; first [discriminate S | injection S as ? ?; subst]
      end
  end.

Ltac trace_goal :=
  repeat match goal with
         | |- _ /\ _ => split
         | |- ~ _ => intro
         | |- incl [] _ => intros ? []
         | |- incl [_] _ => intros ? [<-|[]]
         end;
  rewrite ?in_app_iff, ?in_events_of in *; cbn [In] in *;
  try reflexivity;
  intuition (try discriminate; try congruence).

(** C1, amended. In every tier that is entered: a flat attempt without
    tracks is followed by the full-mode attempt; an exception of the flat
    attempt ends the tier without a full-mode attempt; an exception of
    either attempt, or two attempts without tracks, record one descriptive
    reason and the next tier is tried; tracks end the resolution. *)
Theorem tier_attempts (sc_url : str) (t : tier_id) :
  let u := prepared sc_url in
  let st := snd (resolve w sc_url) in
  looks_absolute sc_url = true ->
  In (attempt_event w u t true) (trace st) ->
  match attempt w u t true with
  | Raise e =>
      ~ In (attempt_event w u t false) (trace st)
      /\ In (error_reason t e) (errors st)
      /\ incl (next_step w u t) (trace st)
  | Ok (x :: q) =>
      ~ In (attempt_event w u t false) (trace st)
      /\ fst (resolve w sc_url) = Ok (x :: q)
  | Ok [] =>
      In (attempt_event w u t false) (trace st)
      /\ match attempt w u t false with
         | Raise e =>
             In (error_reason t e) (errors st)
             /\ incl (next_step w u t) (trace st)
         | Ok (x :: q) => fst (resolve w sc_url) = Ok (x :: q)
         | Ok [] =>
             In (empty_reason t) (errors st)
             /\ incl (next_step w u t) (trace st)
         end
  end.
Proof.
  intros u st Hvalid. subst st.
  pose proof (resolve_run w sc_url Hvalid) as R. fold u in R.
  destruct R; cbn [fst snd errors trace]; intros Hin;
    lookup_facts u t; mode_facts;
    rewrite ?in_app_iff, ?in_events_of in Hin.
  all: which_tier.
  all: match goal with
       | |- context [attempt w ?v ?T true] =>
           pose proof (tier_outcome_spec w v T) as S;
           destruct (attempt w v T true) as [[|x q0]|e];
           [destruct (attempt w v T false) as [[|x q0]|e]|..];
           settle_outcome S
       end.
  all: unfold next_step; trace_goal.
Qed.


Lemma yields_hit (u : str) (t : tier_id) (q : list str) :
  tier_yields w u t q ->
  exists m, tier_outcome w u t = (Hit q, m)
            /\ (attempt w u t true = Ok [] -> m = [true; false]).
Proof.
  intros [Hq H]. pose proof (tier_outcome_spec w u t) as S.
  destruct H as [H|[H1 H2]].
  - rewrite H in S. destruct q as [|x q]; [contradiction|].
    exists [true]. split; [assumption|]. rewrite H. discriminate.
  - rewrite H1, H2 in S. destruct q as [|x q]; [contradiction|].
    exists [true; false]. split; [assumption|reflexivity].
Qed.

Ltac not_in_lookups :=
  match goal with
  | H : In (attempt_event w ?u ?t ?f) ?l, El : exe_lookup w = (_, ?l) |- _ =>
      exfalso; apply (attempt_in_lookups w u t f); rewrite El; exact H
  end.

Ltac not_a_lookup :=
  match goal with
  | H : In (Which ?n) (events_of w ?u ?t ?m) |- _ =>
      exfalso; exact (which_in_events_of w u n t m H)
  end.

Lemma first_tier_entered (sc_url : str) :
  looks_absolute sc_url = true ->
  In (attempt_event w (prepared sc_url) PythonAPI true)
    (trace (snd (resolve w sc_url))).
Proof.
  intros Hvalid. pose proof (resolve_run w sc_url Hvalid) as R.
  destruct (resolve w sc_url) as [r st].
  inversion R; subst; cbn [snd trace]; mode_facts;
    rewrite ?in_app_iff, ?in_events_of; auto.
Qed.

(** C2. When the flat attempt of the first tier yields no track and its
    full-mode attempt yields a non-empty list, the resolver returns that
    list after these two calls and nothing else. In general, when the first
    tier, or a later tier that is entered, yields a non-empty list, that
    list is the result, no attempt of a later tier is in the trace, and no
    executable is looked up unless the tier is the third. *)
Theorem first_hit_wins (sc_url : str) (t : tier_id) (q : list str) :
  let u := prepared sc_url in
  let st := snd (resolve w sc_url) in
  looks_absolute sc_url = true ->
  t = PythonAPI \/ In (attempt_event w u t true) (trace st) ->
  tier_yields w u t q ->
  fst (resolve w sc_url) = Ok q
  /\ (forall t' f,
        In (attempt_event w u t' f) (trace st) -> tier_rank t' <= tier_rank t)
  /\ (forall name, In (Which name) (trace st) -> tier_rank t = 3)
  /\ (t = PythonAPI ->
      attempt w u t true = Ok [] ->
      resolve w sc_url
      = (Ok q,
         mk_state []
           [attempt_event w u PythonAPI true;
            attempt_event w u PythonAPI false])).
Proof.
  intros u st Hvalid Hent. subst st.
  assert (Hin : In (attempt_event w u t true)
                  (trace (snd (resolve w sc_url)))).
  { destruct Hent as [->|H]; [|exact H].
    apply (first_tier_entered sc_url Hvalid). }
  clear Hent. revert Hin.
  pose proof (resolve_run w sc_url Hvalid) as R. fold u in R.
  destruct (resolve w sc_url) as [r st].
  inversion R; subst; cbn [fst snd errors trace]; intros Hin Hy;
    apply yields_hit in Hy; destruct Hy as (m & Hm & Hfull);
    rewrite ?in_app_iff, ?in_events_of in Hin;
    repeat match goal with
           | H : _ \/ _ |- _ => destruct H
           | H : _ /\ _ |- _ => destruct H
           end;
    try not_in_lookups; subst t;
    match goal with
    | H : tier_outcome w u ?T = _, H' : tier_outcome w u ?T = _ |- _ =>
        rewrite H in H'; first [discriminate H' | injection H' as ? ?; subst]
    end.
  all: repeat split; try reflexivity.
  all: try (intros t' f Hin'; rewrite ?in_app_iff, ?in_events_of in Hin';
            repeat match goal with
                   | H : _ \/ _ |- _ => destruct H
                   | H : _ /\ _ |- _ => destruct H
                   end;
            try not_in_lookups; subst; cbn [tier_rank]; lia).
  all: try (intros name Hin'; rewrite ?in_app_iff in Hin';
            repeat match goal with
                   | H : _ \/ _ |- _ => destruct H
                   end;
            try not_a_lookup; reflexivity).
  all: try discriminate.
  intros _ Hflat. rewrite (Hfull Hflat). reflexivity.
Qed.

Lemma startswith_app (a b : str) : startswith (a ++ b) a = true.
Proof.
  induction a as [|x a IH]; simpl; [reflexivity|].
  now rewrite N.eqb_refl, IH.
Qed.

Lemma contains_unfold (s needle : str) :
  contains s needle
  = startswith s needle
    || match s with [] => false | _ :: r => contains r needle end.
Proof. destruct s; reflexivity. Qed.

Lemma contains_app (pre x post : str) : contains (pre ++ x ++ post) x = true.
Proof.
  induction pre as [|c pre IH].
  - rewrite contains_unfold. simpl. now rewrite startswith_app.
  - rewrite contains_unfold. simpl. rewrite IH. apply orb_true_r.
Qed.

Lemma collected_contains (r1 r2 r3 : str) :
  Forall (fun r => contains (exn_str (collected [r1; r2; r3])) r = true)
    [r1; r2; r3].
Proof.
  unfold collected. cbn [exn_str join].
  repeat constructor.
  - apply contains_app.
  - replace (summary ++ r1 ++ lit "." ++ r2 ++ lit "." ++ r3)
      with ((summary ++ r1 ++ lit ".") ++ r2 ++ lit "." ++ r3)
      by (now rewrite <- !app_assoc).
    apply contains_app.
  - replace (summary ++ r1 ++ lit "." ++ r2 ++ lit "." ++ r3)
      with ((summary ++ r1 ++ lit "." ++ r2 ++ lit ".") ++ r3 ++ [])
      by (now rewrite <- !app_assoc, app_nil_r).
    apply contains_app.
Qed.

Lemma tier_miss_reason (u : str) (t : tier_id) (r : str) (m : list bool) :
  tier_outcome w u t = (Miss r, m) -> reason_of t r.
Proof.
  unfold tier_outcome, reason_of.
  destruct (attempt w u t true) as [[|x q]|e]; try discriminate.
  - destruct (attempt w u t false) as [[|x q]|e]; try discriminate;
      intros [= <- _]; eauto.
  - intros [= <- _]; eauto.
Qed.

Lemma tier_hit_attempt (u : str) (t : tier_id) (q : list str)
  (m : list bool) :
  tier_outcome w u t = (Hit q, m) -> exists f, attempt w u t f = Ok q.
Proof.
  unfold tier_outcome.
  destruct (attempt w u t true) as [[|x q']|e] eqn:E1; try discriminate.
  - destruct (attempt w u t false) as [[|x q']|e] eqn:E2; try discriminate.
    intros [= <- _]. now exists false.
  - intros [= <- _]. now exists true.
Qed.

Lemma attempt_not_blank (u : str) (t : tier_id) (f : bool) (q : list str) :
  attempt w u t f = Ok q -> Forall (fun s => blank s = false) q.
Proof.
  assert (Hcmd : forall c, cmd_attempt w u c f = Ok q ->
                           Forall (fun s => blank s = false) q).
  { intros c. unfold cmd_attempt.
    destruct (subprocess_run w _) as [proc|e]; [|discriminate]. cbn [rbind].
    destruct (negb (returncode proc =? 0)%Z); [discriminate|].
    destruct (json_loads w (stdout proc)) as [data|e]; [|discriminate].
    cbn [rbind]. apply extract_not_blank. }
  destruct t; cbn [attempt]; try apply Hcmd.
  unfold api_attempt.
  destruct (YoutubeDL_extract_info w _ _) as [data|e]; [|discriminate].
  cbn [rbind]. apply extract_not_blank.
Qed.

Lemma hit_yields (u : str) (t : tier_id) (q : list str) (m : list bool) :
  tier_outcome w u t = (Hit q, m) -> tier_yields w u t q.
Proof.
  intros H. split; [exact (tier_hit_nonempty w u t q m H)|].
  revert H. unfold tier_outcome.
  destruct (attempt w u t true) as [[|x q']|e]; try discriminate.
  - destruct (attempt w u t false) as [[|x q']|e]; try discriminate.
    intros [= <- _]. now right.
  - intros [= <- _]. now left.
Qed.

Lemma miss_reason (u : str) (t : tier_id) (r : str) (m : list bool) :
  tier_outcome w u t = (Miss r, m) -> r = tier_reason w u t.
Proof.
  unfold tier_outcome, tier_reason.
  destruct (attempt w u t true) as [[|x q]|e]; try discriminate.
  - destruct (attempt w u t false) as [[|x q]|e]; try discriminate;
      now intros [= <- _].
  - now intros [= <- _].
Qed.

Lemma found_located (exe : str) (lookups : list event) :
  exe_lookup w = (Some exe, lookups) ->
  found (Some exe) = true ->
  located w (Executable exe)
  /\ executable_reason w = fun u => tier_reason w u (Executable exe).
Proof.
  intros El Hf. unfold located, executable_reason. rewrite El. cbn [fst].
  destruct exe as [|c s]; [discriminate Hf|].
  split; [split; [reflexivity|discriminate]|reflexivity].
Qed.

Lemma not_found_reason_of (exe : option str) (lookups : list event) :
  exe_lookup w = (exe, lookups) ->
  found exe = false ->
  executable_reason w = fun _ => not_found_reason.
Proof.
  intros El Hf. unfold executable_reason. rewrite El. cbn [fst].
  destruct exe as [[|c s]|]; [reflexivity|discriminate Hf|reflexivity].
Qed.

Lemma miss_no_yield (u : str) (t : tier_id) (r : str) (m : list bool)
  (q : list str) :
  tier_outcome w u t = (Miss r, m) -> ~ tier_yields w u t q.
Proof.
  intros H Hy. apply yields_hit in Hy. destruct Hy as (m' & Hm & _).
  rewrite H in Hm. discriminate Hm.
Qed.

Ltac note_outcomes :=
  repeat match goal with
         | H : tier_outcome w ?u ?t = (Hit ?q, ?m) |- _ =>
             pose proof (hit_yields u t q m H);
             pose proof (tier_hit_nonempty w u t q m H); clear H
         | H : tier_outcome w ?u ?t = (Miss ?r, ?m) |- _ =>
             pose proof (tier_miss_reason u t r m H);
             pose proof (fun q => miss_no_yield u t r m q H);
             apply miss_reason in H; subst r
         | H : exe_lookup w = (Some ?exe, ?l), Hf : found (Some ?exe) = true
           |- _ =>
             destruct (found_located exe l H Hf); clear H
         | H : exe_lookup w = (?exe, ?l), Hf : found ?exe = false |- _ =>
             pose proof (not_found_reason_of exe l H Hf);
             assert (fst (exe_lookup w) = exe) by (now rewrite H); clear H
         end.

(** C7. On an accepted URL the resolver never returns an empty list: it
    returns a list exactly when a tier yields one, and that list is one a
    tier yielded. When the three tiers are
    exhausted, that is when no attempt of the library, of the module run or
    of the located executable yields tracks, it raises one [RuntimeError]
    whose text is the summary followed by the three reasons collected along
    the way, joined by dots: the reason of each of the first two tiers as
    its attempts ended, then that of the executable or the "not found"
    text; each reason occurs in the text. *)
Theorem exhausted_raises_collected (sc_url : str) :
  let u := prepared sc_url in
  let run := resolve w sc_url in
  let r1 := tier_reason w u PythonAPI in
  let r2 := tier_reason w u PythonModule in
  let r3 := executable_reason w u in
  looks_absolute sc_url = true ->
  fst run <> Ok []
  /\ (forall q, fst run = Ok q ->
                exists t, located w t /\ tier_yields w u t q)
  /\ (forall t q, located w t -> tier_yields w u t q ->
                  exists q', fst run = Ok q' /\ q' <> [])
  /\ ((forall t q, located w t -> ~ tier_yields w u t q) ->
      fst run
      = Raise (mk_exn RuntimeError (summary ++ join (lit ".") [r1; r2; r3]))
      /\ errors (snd run) = [r1; r2; r3]
      /\ startswith (summary ++ join (lit ".") [r1; r2; r3]) summary = true
      /\ Forall
           (fun r =>
              contains (summary ++ join (lit ".") [r1; r2; r3]) r = true)
           [r1; r2; r3])
  /\ ((exists q, fst run = Ok q /\ q <> [])
      \/ (exists r1 r2 r3,
            errors (snd run) = [r1; r2; r3]
            /\ reason_of PythonAPI r1
            /\ reason_of PythonModule r2
            /\ (r3 = not_found_reason
                \/ exists exe, reason_of (Executable exe) r3)
            /\ fst run
               = Raise (mk_exn RuntimeError
                          (summary ++ join (lit ".") [r1; r2; r3]))
            /\ startswith (summary ++ join (lit ".") [r1; r2; r3]) summary
               = true
            /\ Forall
                 (fun r =>
                    contains (summary ++ join (lit ".") [r1; r2; r3]) r
                    = true)
                 [r1; r2; r3])).
Proof.
  intros u run r1 r2 r3 Hvalid. subst run r1 r2 r3.
  pose proof (resolve_run w sc_url Hvalid) as R. fold u in R.
  destruct (resolve w sc_url) as [r st].
  assert (Hexh : forall a b c,
             startswith (summary ++ join (lit ".") [a; b; c]) summary = true
             /\ Forall
                  (fun r =>
                     contains (summary ++ join (lit ".") [a; b; c]) r = true)
                  [a; b; c]).
  { intros a b c. split; [apply startswith_app|apply collected_contains]. }
  inversion R; subst; cbn [fst snd errors]; note_outcomes.
  1-3: split; [congruence|]; split;
    [intros q' [= <-]; eexists; split; [|eassumption];
     first [exact I|assumption]|];
    split; [intros t' q' _ _; eauto|];
    split;
    [intros Hno; exfalso; eapply Hno; [|eassumption];
     first [exact I|assumption]
    |left; eauto].
  all: split; [discriminate|]; split; [discriminate|]; split;
    [intros t' q' Hloc Hy; exfalso;
     destruct t' as [| |exe']; cbn [located] in Hloc;
     try match goal with
         | Hn : forall q, ~ tier_yields w _ ?T q,
           Hy : tier_yields w _ ?T _ |- _ => exact (Hn _ Hy)
         end
    |split;
     [intros _;
      match goal with
      | Hr : executable_reason w = _ |- _ => rewrite Hr
      end;
      split; [reflexivity|]; split; [reflexivity|]; apply Hexh
     |right; do 3 eexists; split; [reflexivity|];
      repeat split; eauto; apply Hexh]].
  - destruct Hloc as [Hl _].
    match goal with
    | Hk : located w (Executable ?e) |- _ =>
        destruct Hk as [Hk _]; rewrite Hk in Hl; injection Hl as <-
    end.
    match goal with
    | Hn : forall q, ~ tier_yields w _ ?T q,
      Hy : tier_yields w _ ?T _ |- _ => exact (Hn _ Hy)
    end.
  - destruct Hloc as [Hl Hne].
    match goal with
    | Hk : fst (exe_lookup w) = ?e, Hf : found ?e = false |- _ =>
        rewrite Hk in Hl; rewrite Hl in Hf;
        destruct exe'; [contradiction|discriminate Hf]
    end.
Qed.



(** C9. Every query of a list the resolver returns holds a character that
    is not whitespace: it is neither empty nor whitespace only, and the list
    itself is not empty. *)
Theorem resolved_queries_not_blank (sc_url : str) (q : list str) :
  fst (resolve w sc_url) = Ok q ->
  q <> [] /\ Forall (fun s => blank s = false /\ strip s <> []) q.
Proof.
  destruct (looks_absolute sc_url) eqn:Hvalid;
    [|rewrite (resolve_rejects w sc_url Hvalid); discriminate].
  pose proof (resolve_run w sc_url Hvalid) as R.
  destruct (resolve w sc_url) as [r st].
  assert (Hhit : forall t m, tier_outcome w (prepared sc_url) t = (Hit q, m) ->
                 q <> [] /\ Forall (fun s => blank s = false /\ strip s <> []) q).
  { intros t m H. split; [apply (tier_hit_nonempty w _ _ _ _ H)|].
    destruct (tier_hit_attempt _ _ _ _ H) as [f Hf].
    apply attempt_not_blank in Hf. revert Hf. apply Forall_impl.
    intros s Hs. split; [assumption|]. intros E.
    apply strip_nil_blank in E. congruence. }
  inversion R; subst r st; cbn [fst]; try discriminate;
    intros [= ->]; eauto.
Qed.

Lemma dropwhile_snoc (p : char -> bool) (l : str) (c : char) :
  p c = false -> dropwhile p (l ++ [c]) = dropwhile p l ++ [c].
Proof.
  intros H. induction l as [|x l IH]; simpl; [now rewrite H|].
  destruct (p x); [assumption|reflexivity].
Qed.

Lemma rstrip_cons (c : char) (r : str) :
  isspace c = false -> rstrip (c :: r) = c :: rstrip r.
Proof.
  intros H. unfold rstrip. simpl rev.
  rewrite (dropwhile_snoc isspace _ c H), rev_app_distr. reflexivity.
Qed.

Lemma http_prefix_passes (s : str) :
  startswith s (lit "http") = true -> looks_absolute s = true.
Proof.
  change (lit "http") with [104; 116; 116; 112]%N.
  destruct s as [|a [|b [|c [|d rest]]]]; cbn [startswith];
    rewrite ?andb_false_r; try discriminate.
  rewrite !andb_true_iff, !N.eqb_eq. intros (<- & <- & <- & <- & _).
  unfold looks_absolute, prepared, strip, lstrip. cbn [dropwhile].
  change (isspace 104%N) with false. cbv iota.
  rewrite !rstrip_cons by reflexivity.
  rewrite sanitize_before_first_mark. reflexivity.
Qed.

Lemma http_scheme_prefix (s : str) :
  has_http_scheme s = true -> startswith s (lit "http") = true.
Proof.
  unfold has_http_scheme.
  change (lit "http") with [104; 116; 116; 112]%N.
  change (lit "http://") with [104; 116; 116; 112; 58; 47; 47]%N.
  change (lit "https://") with [104; 116; 116; 112; 115; 58; 47; 47]%N.
  destruct s as [|a [|b [|c [|d rest]]]]; cbn [startswith];
    rewrite ?andb_false_r; try discriminate.
  destruct (104 =? a)%N, (116 =? b)%N, (116 =? c)%N, (112 =? d)%N;
    cbn [andb orb]; auto.
Qed.

(** C3, amended. The resolver tests the trimmed, sanitised URL for the four
    characters [http]. When the test fails it raises the [ValueError] with
    the remediation text, which names the [https://soundcloud.com/] form,
    before any external call; when it passes, that error is not raised. A
    URL that begins with the scheme of HTTP or HTTPS, before or after
    trimming and sanitising, passes the test. *)
Theorem url_check (sc_url : str) :
  (if looks_absolute sc_url
   then is_invalid_url (fst (resolve w sc_url)) = false
   else resolve w sc_url
        = (Raise (mk_exn ValueError invalid_url_message), mk_state [] []))
  /\ implb (has_http_scheme (prepared sc_url)) (looks_absolute sc_url) = true
  /\ implb (has_http_scheme sc_url) (looks_absolute sc_url) = true
  /\ contains invalid_url_message (lit "https://soundcloud.com/") = true.
Proof.
  split; [|split; [|split; [|reflexivity]]].
  - destruct (looks_absolute sc_url) eqn:Hvalid;
      [|apply (resolve_rejects w sc_url Hvalid)].
    pose proof (resolve_run w sc_url Hvalid) as R.
    destruct (resolve w sc_url) as [r st].
    inversion R; reflexivity.
  - destruct (has_http_scheme (prepared sc_url)) eqn:E; [|reflexivity].
    apply http_scheme_prefix in E. simpl. exact E.
  - destruct (has_http_scheme sc_url) eqn:E; [|reflexivity].
    simpl. now apply http_prefix_passes, http_scheme_prefix.
Qed.

End TierClaims.

(** ** Concrete runs *)

(** C1, as stated, fails: when the flat attempt of the first tier raises,
    the resolver leaves the tier without the full-mode attempt, here one
    that would have given two tracks, and goes on to the next tier. *)
Lemma flat_exception_skips_full_mode :
  let w := world_flat_raises in
  let u := prepared playlist_url in
  let st := snd (resolve w playlist_url) in
  attempt w u PythonAPI true = Raise download_error
  /\ attempt w u PythonAPI false = Ok [lit "Bar - Foo"; lit "Baz"]
  /\ trace st
     = [ attempt_event w u PythonAPI true;
         attempt_event w u PythonModule true;
         Which (lit "yt-dlp"); Which (lit "yt-dlp.exe") ]
  /\ ~ In (attempt_event w u PythonAPI false) (trace st).
Proof.
  cbv zeta. split; [reflexivity|]. split; [reflexivity|].
  assert (E : trace (snd (resolve world_flat_raises playlist_url))
              = [ attempt_event world_flat_raises (prepared playlist_url)
                    PythonAPI true;
                  attempt_event world_flat_raises (prepared playlist_url)
                    PythonModule true;
                  Which (lit "yt-dlp"); Which (lit "yt-dlp.exe") ])
    by (vm_compute; reflexivity).
  split; [exact E|]. rewrite E. cbn [In].
  intros [H|[H|[H|[H|[]]]]];
    try (apply attempt_event_inj in H; destruct H as [H1 H2]);
    discriminate.
Qed.

(** An instance of [tier_attempts]: the first tier of [world_flat_raises]. *)
Lemma tier_attempts_witness :
  let w := world_flat_raises in
  let u := prepared playlist_url in
  let st := snd (resolve w playlist_url) in
  looks_absolute playlist_url = true
  /\ In (attempt_event w u PythonAPI true) (trace st)
  /\ ~ In (attempt_event w u PythonAPI false) (trace st)
  /\ In (error_reason PythonAPI download_error) (errors st)
  /\ incl (next_step w u PythonAPI) (trace st).
Proof.
  cbv zeta.
  assert (Hvalid : looks_absolute playlist_url = true) by reflexivity.
  assert (Hin : In (attempt_event world_flat_raises (prepared playlist_url)
                      PythonAPI true)
                  (trace (snd (resolve world_flat_raises playlist_url))))
    by (left; reflexivity).
  split; [exact Hvalid|]. split; [exact Hin|].
  exact (tier_attempts world_flat_raises playlist_url PythonAPI Hvalid Hin).
Defined.

(** An instance of [first_hit_wins]: the first tier of [world_flat_empty]
    hits in full mode. *)
Lemma first_hit_wins_witness :
  let w := world_flat_empty in
  let u := prepared playlist_url in
  tier_yields w u PythonAPI [lit "Bar - Foo"; lit "Baz"]
  /\ resolve w playlist_url
     = (Ok [lit "Bar - Foo"; lit "Baz"],
        mk_state []
          [attempt_event w u PythonAPI true;
           attempt_event w u PythonAPI false]).
Proof.
  cbv zeta.
  assert (Hy : tier_yields world_flat_empty (prepared playlist_url) PythonAPI
                 [lit "Bar - Foo"; lit "Baz"]).
  { split; [discriminate|]. right. split; reflexivity. }
  split; [exact Hy|].
  refine (proj2 (proj2 (proj2
            (first_hit_wins world_flat_empty playlist_url PythonAPI
               [lit "Bar - Foo"; lit "Baz"] _ _ Hy))) _ _);
    try reflexivity.
  left. reflexivity.
Defined.

(** C3, as stated, fails: ["httpfoo"] does not begin with the scheme of
    HTTP or HTTPS, yet the resolver does not raise the [ValueError]: it goes
    to the backends, and here fails with the collected [RuntimeError]. *)
Lemma prefix_check_accepts_schemeless :
  let run := resolve world_broken (lit "httpfoo") in
  has_http_scheme (prepared (lit "httpfoo")) = false
  /\ is_invalid_url (fst run) = false
  /\ fst run <> Raise (mk_exn ValueError invalid_url_message)
  /\ hd_error (trace (snd run))
     = Some (attempt_event world_broken (lit "httpfoo") PythonAPI true).
Proof.
  cbv zeta. split; [reflexivity|]. split; [reflexivity|].
  split; [|reflexivity]. vm_compute. discriminate.
Qed.

Lemma world_broken_never_yields (u : str) (t : tier_id) (q : list str) :
  located world_broken t -> ~ tier_yields world_broken u t q.
Proof.
  intros Hloc [_ [H|[H _]]]; destruct t as [| |exe];
    try discriminate H; destruct Hloc as [Hl _]; discriminate Hl.
Qed.

(** An instance of [exhausted_raises_collected]: no tier of [world_broken]
    yields, and the three reasons are collected. *)
Lemma exhausted_raises_collected_witness :
  let run := resolve world_broken playlist_url in
  looks_absolute playlist_url = true
  /\ fst run <> Ok []
  /\ fst run
     = Raise (collected
                [ error_reason PythonAPI download_error;
                  error_reason PythonModule file_not_found;
                  not_found_reason ])
  /\ errors (snd run)
     = [ error_reason PythonAPI download_error;
         error_reason PythonModule file_not_found;
         not_found_reason ].
Proof.
  cbv zeta.
  assert (Hvalid : looks_absolute playlist_url = true) by reflexivity.
  destruct (exhausted_raises_collected world_broken playlist_url Hvalid)
    as (Hne & _ & _ & Hexh & _).
  destruct (Hexh (world_broken_never_yields (prepared playlist_url)))
    as (Hr & He & _).
  split; [exact Hvalid|]. split; [exact Hne|].
  split; [exact Hr|exact He].
Defined.




(** An instance of [resolved_queries_not_blank]: the two queries that
    [world_flat_empty] resolves to. *)
Lemma resolved_queries_not_blank_witness :
  fst (resolve world_flat_empty playlist_url)
  = Ok [lit "Bar - Foo"; lit "Baz"]
  /\ Forall (fun s => blank s = false /\ strip s <> [])
       [lit "Bar - Foo"; lit "Baz"].
Proof.
  assert (Hr : fst (resolve world_flat_empty playlist_url)
               = Ok [lit "Bar - Foo"; lit "Baz"]) by reflexivity.
  split; [exact Hr|].
  exact (proj2 (resolved_queries_not_blank world_flat_empty playlist_url
                  [lit "Bar - Foo"; lit "Baz"] Hr)).
Defined.

(** * Further properties *)

(** ** Sanitising and trimming *)

(** X1. Sanitising leaves a URL as it is exactly when the URL holds neither
    ['?'] nor ['#']. *)
Theorem sanitize_unchanged_iff (url : str) :
  _sanitize_sc_url url = url <-> existsb is_mark url = false.
Proof.
  rewrite sanitize_before_first_mark. unfold before_first_mark. split.
  - intros H. rewrite <- H. apply take_until_clean.
  - apply take_until_fixed.
Qed.

Lemma dropwhile_length (p : char -> bool) (s : str) :
  length (dropwhile p s) <= length s.
Proof.
  induction s as [|c r IH]; simpl; [lia|]. destruct (p c); simpl; lia.
Qed.

Lemma rstrip_length (s : str) : length (rstrip s) <= length s.
Proof.
  unfold rstrip. rewrite length_rev.
  etransitivity; [apply dropwhile_length|]. now rewrite length_rev.
Qed.

Lemma strip_fixed_lstrip (s : str) : strip s = s -> lstrip s = s.
Proof.
  unfold strip. intros H.
  destruct (dropwhile_suffix isspace s) as [pre E]. fold (lstrip s) in E.
  assert (L : length s <= length (lstrip s)).
  { rewrite <- H at 1. apply rstrip_length. }
  assert (P : length pre = 0).
  { apply (f_equal (@length char)) in E. rewrite length_app in E. lia. }
  destruct pre; [|discriminate]. now rewrite E at 2.
Qed.

Lemma dropwhile_app_stop (p : char -> bool) (l m : str) (c : char) :
  p c = false -> dropwhile p (l ++ c :: m) = dropwhile p l ++ c :: m.
Proof.
  intros H. induction l as [|x l IH]; simpl; [now rewrite H|].
  destruct (p x); [assumption|reflexivity].
Qed.

Lemma rstrip_app_stop (a r : str) (c : char) :
  isspace c = false -> rstrip (a ++ c :: r) = a ++ c :: rstrip r.
Proof.
  intros H. unfold rstrip.
  rewrite rev_app_distr. simpl rev.
  rewrite <- app_assoc. simpl app.
  rewrite (dropwhile_app_stop isspace (rev r) (rev a) c H).
  rewrite rev_app_distr. simpl rev. rewrite rev_involutive.
  now rewrite <- app_assoc.
Qed.

Lemma lstrip_app_fixed (a b : str) :
  a <> [] -> lstrip a = a -> lstrip (a ++ b) = a ++ b.
Proof.
  unfold lstrip. destruct a as [|c a]; [contradiction|]. intros _. simpl.
  destruct (isspace c) eqn:E; [|reflexivity].
  intros H. pose proof (dropwhile_length isspace a) as L.
  rewrite H in L. simpl in L. lia.
Qed.

Lemma mark_not_space (m : char) : is_mark m = true -> isspace m = false.
Proof.
  unfold is_mark. rewrite orb_true_iff, !N.eqb_eq.
  intros [->| ->]; reflexivity.
Qed.

Lemma take_until_app_stop (p : char -> bool) (a r : str) (c : char) :
  existsb p a = false -> p c = true -> take_until p (a ++ c :: r) = a.
Proof.
  intros Ha Hc. induction a as [|x a IH]; simpl; [now rewrite Hc|].
  simpl in Ha. apply orb_false_iff in Ha. destruct Ha as [-> Ha].
  now rewrite IH.
Qed.

Lemma prepared_with_suffix (url rest : str) (m : char) :
  strip url = url ->
  existsb is_mark url = false ->
  is_mark m = true ->
  prepared (url ++ m :: rest) = url /\ prepared url = url.
Proof.
  intros Hs Hm Hmark. unfold prepared.
  rewrite !sanitize_before_first_mark. unfold before_first_mark.
  split.
  - unfold strip.
    assert (L : lstrip (url ++ m :: rest) = url ++ m :: rest).
    { destruct url as [|c url].
      - unfold lstrip. simpl. now rewrite (mark_not_space m Hmark).
      - apply lstrip_app_fixed; [discriminate|].
        now apply strip_fixed_lstrip. }
    rewrite L, (rstrip_app_stop url rest m (mark_not_space m Hmark)).
    now apply take_until_app_stop.
  - rewrite Hs. now apply take_until_fixed.
Qed.

(** ** Extraction from any info-dict *)

Lemma py_strip_text_like (v : pyval) :
  text_like v = true ->
  py_strip (py_or v (PyStr [])) = Ok (strip (text_of v)).
Proof.
  unfold py_or. destruct v as [| b | z | m e | s | l | d]; simpl;
    try (destruct s; reflexivity); try reflexivity.
  - destruct b; [discriminate|reflexivity].
  - destruct (Z.eqb z 0); [reflexivity|discriminate].
  - destruct (Z.eqb m 0); [reflexivity|discriminate].
  - destruct l; [reflexivity|discriminate].
  - destruct d; [reflexivity|discriminate].
Qed.

Lemma py_strip_not_text_like (v : pyval) :
  text_like v = false ->
  py_strip (py_or v (PyStr [])) = Raise (no_attribute v "strip").
Proof.
  unfold py_or. destruct v as [| b | z | m e | s | l | d]; simpl;
    try discriminate.
  - destruct b; [reflexivity|discriminate].
  - destruct (Z.eqb z 0); [discriminate|reflexivity].
  - destruct (Z.eqb m 0); [discriminate|reflexivity].
  - destruct l; [discriminate|reflexivity].
  - destruct d; [discriminate|reflexivity].
Qed.

Lemma extract_entry_ok (entry : pyval) (queries : list str) :
  entry_ok entry = true ->
  extract_entry entry queries = Ok (queries ++ queries_of_entry entry).
Proof.
  destruct entry as [| | | | |l|d]; try discriminate.
  unfold entry_ok, extract_entry, queries_of_entry. cbn [py_get rbind].
  rewrite andb_true_iff. intros [Ht Hu].
  rewrite (py_strip_text_like _ Ht), (py_strip_text_like _ Hu).
  cbn [rbind].
  destruct (strip (text_of (dict_get d (lit "title") PyNone)));
    [now rewrite app_nil_r|reflexivity].
Qed.

Lemma extract_entry_bad (entry : pyval) (queries : list str) :
  entry_ok entry = false ->
  exists exc, extract_entry entry queries = Raise exc
              /\ exn_cls exc = AttributeError.
Proof.
  unfold extract_entry.
  destruct entry as [| | | | |l|d];
    try (intros _; eexists; split; reflexivity).
  unfold entry_ok. cbn [py_get rbind]. intros H.
  destruct (text_like (dict_get d (lit "title") PyNone)) eqn:Ht.
  - rewrite (py_strip_text_like _ Ht). cbn [rbind].
    simpl in H. rewrite (py_strip_not_text_like _ H).
    eexists; split; reflexivity.
  - rewrite (py_strip_not_text_like _ Ht). eexists; split; reflexivity.
Qed.

Lemma extract_loop_ok (entries : list pyval) (queries : list str) :
  forallb entry_ok entries = true ->
  extract_loop entries queries
  = Ok (queries ++ flat_map queries_of_entry entries).
Proof.
  revert queries. induction entries as [|e entries IH]; intros queries; simpl.
  - now rewrite app_nil_r.
  - rewrite andb_true_iff. intros [He Hrest].
    rewrite (extract_entry_ok e queries He). cbn [rbind].
    rewrite (IH _ Hrest). now rewrite <- app_assoc.
Qed.

Lemma extract_loop_bad (entries : list pyval) (queries : list str) :
  forallb entry_ok entries = false ->
  exists exc, extract_loop entries queries = Raise exc
              /\ exn_cls exc = AttributeError.
Proof.
  revert queries. induction entries as [|e entries IH]; intros queries; simpl;
    [discriminate|].
  destruct (entry_ok e) eqn:He; simpl.
  - intros Hrest. rewrite (extract_entry_ok e queries He). cbn [rbind].
    now apply IH.
  - intros _. destruct (extract_entry_bad e queries He) as (exc & E & C).
    rewrite E. cbn [rbind]. now exists exc.
Qed.

Lemma extract_of_entries (d : list (str * pyval)) (entries : list pyval) :
  dict_get d (lit "entries") (PyList []) = PyList entries ->
  _extract_sc_queries_from_ydl_json (PyDict d) = extract_loop entries [].
Proof.
  intros H. unfold _extract_sc_queries_from_ydl_json. cbn [py_get rbind].
  rewrite H. now destruct entries.
Qed.

(** X3. When every entry of an info-dict is a dict whose title and uploader
    are each a str or a false value (absent, [None], [0], an empty
    container), extraction raises nothing and yields, in order, one query
    per entry with a non-blank title, whatever other keys are there. *)
Theorem extract_well_formed (d : list (str * pyval)) (entries : list pyval) :
  dict_get d (lit "entries") (PyList []) = PyList entries ->
  forallb entry_ok entries = true ->
  _extract_sc_queries_from_ydl_json (PyDict d)
  = Ok (flat_map queries_of_entry entries).
Proof.
  intros Hd Hok. rewrite (extract_of_entries d entries Hd).
  now rewrite (extract_loop_ok entries [] Hok).
Qed.

Lemma extract_well_formed_witness :
  let entries :=
    [ PyDict [(lit "title", PyStr (lit " Foo ")); (lit "uploader", PyNone)];
      PyDict [(lit "title", PyInt 0); (lit "uploader", PyStr (lit "Bar"))];
      PyDict [(lit "uploader", PyStr (lit "Bar"));
              (lit "title", PyStr (lit "Baz"));
              (lit "duration", PyFloat 3 (-1))] ] in
  let d := [(lit "id", PyInt 7); (lit "entries", PyList entries)] in
  _extract_sc_queries_from_ydl_json (PyDict d)
  = Ok [lit "Foo"; lit "Bar - Baz"].
Proof.
  intros entries d.
  exact (extract_well_formed d entries eq_refl eq_refl).
Defined.

(** X4. One entry that is not such a dict (a [None] entry, a numeric title)
    makes the whole extraction raise an [AttributeError]: the queries of the
    entries before it are not returned. *)
Theorem extract_malformed (d : list (str * pyval)) (entries : list pyval) :
  dict_get d (lit "entries") (PyList []) = PyList entries ->
  forallb entry_ok entries = false ->
  exists exc,
    _extract_sc_queries_from_ydl_json (PyDict d) = Raise exc
    /\ exn_cls exc = AttributeError.
Proof.
  intros Hd Hbad. rewrite (extract_of_entries d entries Hd).
  now apply extract_loop_bad.
Qed.

Lemma extract_malformed_witness :
  let entries := [PyDict [(lit "title", PyStr (lit "Foo"))]; PyNone] in
  exists exc,
    _extract_sc_queries_from_ydl_json (PyDict [(lit "entries", PyList entries)])
    = Raise exc
    /\ exn_cls exc = AttributeError.
Proof.
  intros entries.
  exact (extract_malformed [(lit "entries", PyList entries)] entries
           eq_refl eq_refl).
Defined.

(** X5. An info-dict without entries (the key is missing, or its value is
    [None], an empty list or any other false value) gives no query and no
    error. *)
Theorem extract_without_entries (d : list (str * pyval)) :
  truthy (dict_get d (lit "entries") (PyList [])) = false ->
  _extract_sc_queries_from_ydl_json (PyDict d) = Ok [].
Proof.
  intros H. unfold _extract_sc_queries_from_ydl_json, py_or.
  cbn [py_get rbind]. now rewrite H.
Qed.

Lemma extract_without_entries_witness :
  _extract_sc_queries_from_ydl_json
    (PyDict [(lit "title", PyStr (lit "Mix")); (lit "entries", PyNone)])
  = Ok [].
Proof.
  exact (extract_without_entries
           [(lit "title", PyStr (lit "Mix")); (lit "entries", PyNone)]
           eq_refl).
Defined.

Section MoreOnTheResolver.

Variable w : world.

Lemma resolve_of_prepared (a b : str) :
  prepared a = prepared b -> resolve w a = resolve w b.
Proof.
  intros H. rewrite !resolve_ladder. unfold ladder, looks_absolute.
  now rewrite H.
Qed.

(** X2. What follows the first ['?'] or ['#'] never reaches the resolver: a
    trimmed URL without marks resolves the same, result and external calls
    alike, whatever query string or fragment is put after it. *)
Theorem suffix_is_ignored (url rest : str) (m : char) :
  strip url = url ->
  existsb is_mark url = false ->
  is_mark m = true ->
  resolve w (url ++ m :: rest) = resolve w url.
Proof.
  intros Hs Hm Hmark. apply resolve_of_prepared.
  destruct (prepared_with_suffix url rest m Hs Hm Hmark) as [-> ->].
  reflexivity.
Qed.


Lemma no_yield_miss (u : str) (t : tier_id) :
  (forall q, ~ tier_yields w u t q) ->
  exists r m, tier_outcome w u t = (Miss r, m).
Proof.
  intros H. pose proof (tier_outcome_spec w u t) as S.
  destruct (attempt w u t true) as [[|x q]|e] eqn:E1;
    [destruct (attempt w u t false) as [[|x q]|e] eqn:E2|..]; eauto;
    exfalso; apply (H (x :: q)); (split; [discriminate|auto]).
Qed.

Lemma lookup_of_run (exe : option str) (lookups : list event) :
  exe_lookup w = (exe, lookups) ->
  fst (exe_lookup w) = exe /\ snd (exe_lookup w) = lookups.
Proof. now intros ->. Qed.

(** X6. The ladder falls back: when no tier before [t] yields tracks, for
    whatever reason (an exception, no tracks), and [t] yields a non-empty
    list (the executable tier running what the lookup gave), that list is
    the result, with one recorded reason per tier passed. *)
Theorem fallback_reaches_tier (sc_url : str) (t : tier_id) (q : list str) :
  let u := prepared sc_url in
  looks_absolute sc_url = true ->
  (forall t' q', tier_rank t' < tier_rank t -> ~ tier_yields w u t' q') ->
  located w t ->
  tier_yields w u t q ->
  fst (resolve w sc_url) = Ok q
  /\ length (errors (snd (resolve w sc_url))) = tier_rank t - 1.
Proof.
  intros u Hvalid Hbefore Hloc Hy.
  apply yields_hit in Hy. destruct Hy as (m & Hm & _).
  assert (Hmiss : forall t', tier_rank t' < tier_rank t ->
                             exists r m', tier_outcome w u t' = (Miss r, m')).
  { intros t' Hlt. apply no_yield_miss. intros q'. now apply Hbefore. }
  pose proof (resolve_run w sc_url Hvalid) as R. fold u in R.
  destruct (resolve w sc_url) as [r st].
  destruct t as [| |exe]; cbn [tier_rank located] in *.
  - inversion R; subst; cbn [fst snd errors]; split; try congruence;
      try reflexivity.
  - destruct (Hmiss PythonAPI) as (r1' & m1' & H1); [cbn; lia|].
    inversion R; subst; cbn [fst snd errors]; split; try congruence;
      try reflexivity.
  - destruct (Hmiss PythonAPI) as (r1' & m1' & H1); [cbn; lia|].
    destruct (Hmiss PythonModule) as (r2' & m2' & H2); [cbn; lia|].
    destruct Hloc as [Hexe Hne].
    inversion R; subst; cbn [fst snd errors];
      try (split; congruence);
      match goal with
      | El : exe_lookup w = _ |- _ =>
          apply lookup_of_run in El; destruct El as [El _];
          rewrite Hexe in El;
          first [injection El as <- | subst]
      end;
      first [split; [congruence|reflexivity]
            |split; congruence
            |destruct exe; [contradiction|discriminate]].
Qed.

(** How a tier that was entered shows in the run: its attempts are in the
    trace as its outcome lists them, a reason is recorded if it missed, and
    its hit is the result. *)
Lemma entered_outcome (sc_url : str) (t : tier_id) :
  let u := prepared sc_url in
  let st := snd (resolve w sc_url) in
  looks_absolute sc_url = true ->
  In (attempt_event w u t true) (trace st) ->
  (forall f, In (attempt_event w u t f) (trace st)
             <-> In f (snd (tier_outcome w u t)))
  /\ match fst (tier_outcome w u t) with
     | Miss r => In r (errors st)
     | Hit q => fst (resolve w sc_url) = Ok q
     end
  /\ located w t.
Proof.
  intros u st Hvalid. subst st.
  pose proof (resolve_run w sc_url Hvalid) as R. fold u in R.
  destruct (resolve w sc_url) as [r st].
  inversion R; subst; cbn [fst snd errors trace]; intros Hin;
    rewrite ?in_app_iff, ?in_events_of in Hin;
    repeat match goal with
           | H : _ \/ _ |- _ => destruct H
           | H : _ /\ _ |- _ => destruct H
           end;
    try match goal with
        | H : In (attempt_event w ?v ?t' ?f) ?l,
          El : exe_lookup w = (_, ?l) |- _ =>
            exfalso; apply (attempt_in_lookups w v t' f); rewrite El; exact H
        end;
    subst t;
    repeat match goal with
           | H : tier_outcome w u ?T = _ |- context [tier_outcome w u ?T] =>
               rewrite H
           end;
    cbn [fst snd].
  all: split;
    [intros f; rewrite ?in_app_iff, ?in_events_of; split;
     [intros Hf;
      repeat match goal with
             | H : _ \/ _ |- _ => destruct H
             | H : _ /\ _ |- _ => destruct H
             end;
      try discriminate; try assumption;
      match goal with
      | H : In (attempt_event w ?v ?t' ?f') ?l,
        El : exe_lookup w = (_, ?l) |- _ =>
          exfalso; apply (attempt_in_lookups w v t' f'); rewrite El; exact H
      end
     |intros Hf; auto 6]
    |split; [cbn [In]; auto|cbn [located]; auto]].
  all: match goal with
       | El : exe_lookup w = _ |- _ =>
           apply lookup_of_run in El; destruct El as [El _]; split;
           [exact El|]
       end.
  all: match goal with
       | H : found (Some ?e) = true |- ?e <> [] =>
           intros ->; discriminate H
       end.
Qed.

(** X7. A subprocess backend that exits with a non-zero code in flat mode
    ends its tier there: the full-mode attempt is not made, and the reason
    recorded for the tier carries the trimmed standard error of the process,
    or its trimmed standard output when the standard error is blank. *)
Theorem failed_subprocess_reason (sc_url : str) (t : tier_id)
  (proc : CompletedProcess) :
  let u := prepared sc_url in
  let st := snd (resolve w sc_url) in
  looks_absolute sc_url = true ->
  t <> PythonAPI ->
  In (attempt_event w u t true) (trace st) ->
  subprocess_run w (cmd_line u (ydl_cmd_of w t) true) = Ok proc ->
  returncode proc <> 0%Z ->
  In (error_reason t
        (mk_exn RuntimeError
           (match strip (stderr proc) with
            | [] => strip (stdout proc)
            | e => e
            end)))
     (errors st)
  /\ ~ In (attempt_event w u t false) (trace st).
Proof.
  intros u st Hvalid Ht Hin Hrun Hcode.
  assert (Hatt : attempt w u t true
                 = Raise (mk_exn RuntimeError
                            (match strip (stderr proc) with
                             | [] => strip (stdout proc)
                             | e => e
                             end))).
  { destruct t; [contradiction| |]; cbn [attempt]; unfold cmd_attempt;
      rewrite Hrun; cbn [rbind];
      apply Z.eqb_neq in Hcode; now rewrite Hcode. }
  destruct (entered_outcome sc_url t Hvalid Hin) as (Hev & Hres & _).
  pose proof (tier_outcome_spec w u t) as S. rewrite Hatt in S.
  fold u in Hev, Hres. rewrite S in Hev, Hres. cbn [fst snd] in Hev, Hres.
  split; [exact Hres|].
  intros Hfull. apply Hev in Hfull. simpl in Hfull.
  destruct Hfull as [H|[]]. discriminate H.
Qed.

Lemma event_url_attempt (u : str) (t : tier_id) (f : bool) :
  event_url (attempt_event w u t f) = Some u.
Proof. destruct t, f; reflexivity. Qed.

Lemma events_of_urls (u : str) (t : tier_id) (m : list bool) :
  Forall (fun ev => match event_url ev with
                    | Some url => url = u
                    | None => True
                    end)
    (events_of w u t m).
Proof.
  apply Forall_forall. intros ev Hin. unfold events_of in Hin.
  apply in_map_iff in Hin. destruct Hin as (f & <- & _).
  now rewrite event_url_attempt.
Qed.

Lemma lookups_are_lookups (ev : event) :
  In ev (snd (exe_lookup w)) ->
  ev = Which (lit "yt-dlp")
  \/ ev = Which (lit "yt-dlp.exe")
     /\ found (shutil_which w (lit "yt-dlp")) = false.
Proof.
  unfold exe_lookup.
  destruct (shutil_which w (lit "yt-dlp")) as [[|c s]|]; simpl;
    intuition auto.
Qed.

Lemma lookups_urls :
  Forall (fun ev => match event_url ev with
                    | Some url => False
                    | None => True
                    end)
    (snd (exe_lookup w)).
Proof.
  apply Forall_forall. intros ev Hin.
  destruct (lookups_are_lookups ev Hin) as [->|[-> _]]; exact I.
Qed.

(** X8. Every extraction backend is given the trimmed and sanitised URL,
    which holds neither ['?'] nor ['#'], and never the URL as typed: it is
    the URL argument of each library call and the last argument of each
    command line. *)
Theorem backends_get_prepared_url (sc_url : str) :
  Forall (fun ev => match event_url ev with
                    | Some url => url = prepared sc_url
                    | None => True
                    end)
    (trace (snd (resolve w sc_url)))
  /\ existsb is_mark (prepared sc_url) = false.
Proof.
  split.
  - destruct (looks_absolute sc_url) eqn:Hvalid;
      [|rewrite (resolve_rejects w sc_url Hvalid); constructor].
    pose proof (resolve_run w sc_url Hvalid) as R.
    destruct (resolve w sc_url) as [r st].
    inversion R; subst; cbn [snd trace];
      repeat match goal with
             | El : exe_lookup w = _ |- _ =>
                 apply lookup_of_run in El; destruct El as [_ El]
             end;
      rewrite ?Forall_app; repeat split; try apply events_of_urls;
      subst; refine (Forall_impl _ _ lookups_urls);
      intros ev; destruct (event_url ev); tauto.
  - unfold prepared. rewrite sanitize_before_first_mark.
    apply take_until_clean.
Qed.

Lemma events_of_NoDup (u : str) (t : tier_id) :
  NoDup (events_of w u t (snd (tier_outcome w u t)))
  /\ length (events_of w u t (snd (tier_outcome w u t))) <= 2.
Proof.
  destruct (tier_modes w u t) as [-> | ->]; unfold events_of; simpl;
    (split; [|lia]); repeat constructor; simpl; try tauto.
  intros [H|[]]. apply attempt_event_inj in H. destruct H as [_ H].
  discriminate H.
Qed.

Lemma lookups_NoDup :
  NoDup (snd (exe_lookup w)) /\ length (snd (exe_lookup w)) <= 2.
Proof.
  unfold exe_lookup.
  destruct (shutil_which w (lit "yt-dlp")) as [[|c s]|]; simpl;
    (split; [|lia]); repeat constructor; simpl; try tauto;
    intros [H|[]]; vm_compute in H; discriminate H.
Qed.

Lemma snd_outcome (u : str) (t : tier_id) (o : tier_result) (m : list bool) :
  tier_outcome w u t = (o, m) -> m = snd (tier_outcome w u t).
Proof. now intros ->. Qed.

(** X9. In one resolution no external call is made twice, and there are at
    most eight of them: two attempts per tier and two lookups of the
    executable. *)
Theorem calls_are_distinct_and_few (sc_url : str) :
  NoDup (trace (snd (resolve w sc_url)))
  /\ length (trace (snd (resolve w sc_url))) <= 8.
Proof.
  destruct (looks_absolute sc_url) eqn:Hvalid;
    [|rewrite (resolve_rejects w sc_url Hvalid); simpl; split;
      [constructor|lia]].
  pose proof (resolve_run w sc_url Hvalid) as R.
  destruct (resolve w sc_url) as [r st].
  pose proof (events_of_NoDup (prepared sc_url) PythonAPI) as [N1 L1].
  pose proof (events_of_NoDup (prepared sc_url) PythonModule) as [N2 L2].
  pose proof lookups_NoDup as [NL LL].
  inversion R; subst; cbn [snd trace];
    repeat match goal with
           | H : tier_outcome w _ _ = _ |- _ =>
               apply snd_outcome in H; subst
           | El : exe_lookup w = _ |- _ =>
               apply lookup_of_run in El; destruct El as [_ El]; subst
           end;
    try (pose proof (events_of_NoDup (prepared sc_url) (Executable exe))
          as [N3 L3]);
    (split; [|rewrite ?length_app; lia]).
  all: repeat apply NoDup_app; try assumption.
  all: intros ev Hin Hin';
    rewrite ?in_app_iff in Hin; rewrite ?in_app_iff in Hin';
    repeat match goal with
           | H : _ \/ _ |- _ => destruct H
           end;
    unfold events_of in *;
    repeat match goal with
           | H : In _ (map _ _) |- _ =>
               apply in_map_iff in H; destruct H as (? & ? & ?); subst
           end;
    try match goal with
        | H : attempt_event w _ _ _ = attempt_event w _ _ _ |- _ =>
            apply attempt_event_inj in H; destruct H; discriminate
        end;
    match goal with
    | H : In (attempt_event w ?v ?t ?f) (snd (exe_lookup w)) |- _ =>
        exact (attempt_in_lookups w v t f H)
    end.
Qed.

(** X10. The executable tier runs the first of [yt-dlp] and [yt-dlp.exe]
    that is found, and [yt-dlp.exe] is looked up only when [yt-dlp] is not
    found. *)
Theorem executable_is_first_found (sc_url : str) (exe : str) (f : bool) :
  let u := prepared sc_url in
  let st := snd (resolve w sc_url) in
  In (attempt_event w u (Executable exe) f) (trace st) ->
  exe <> []
  /\ Some exe
     = (if found (shutil_which w (lit "yt-dlp"))
        then shutil_which w (lit "yt-dlp")
        else shutil_which w (lit "yt-dlp.exe"))
  /\ (In (Which (lit "yt-dlp.exe")) (trace st)
      <-> found (shutil_which w (lit "yt-dlp")) = false).
Proof.
  intros u st. subst st.
  destruct (looks_absolute sc_url) eqn:Hvalid;
    [|rewrite (resolve_rejects w sc_url Hvalid); intros []].
  pose proof (resolve_run w sc_url Hvalid) as R. fold u in R.
  destruct (resolve w sc_url) as [r st].
  inversion R; subst; cbn [snd trace]; intros Hin;
    rewrite ?in_app_iff, ?in_events_of in Hin;
    repeat match goal with
           | H : _ \/ _ |- _ => destruct H
           | H : _ /\ _ |- _ => destruct H
           end;
    try discriminate;
    try match goal with
        | H : In (attempt_event w ?v ?t' ?f') ?l,
          El : exe_lookup w = (_, ?l) |- _ =>
            exfalso; apply (attempt_in_lookups w v t' f'); rewrite El; exact H
        end.
  all: match goal with
       | H : Executable _ = Executable _ |- _ => injection H as <-
       end.
  all: match goal with
       | El : exe_lookup w = _, Hf : found (Some _) = true |- _ =>
           unfold exe_lookup in El;
           destruct (shutil_which w (lit "yt-dlp")) as [[|c s]|] eqn:W;
           injection El as E1 E2; subst lookups;
           (split; [intros ->; discriminate Hf|]);
           (split; [cbn [found]; try rewrite E1; try reflexivity|])
       end.
  all: rewrite ?in_app_iff; cbn [found In]; split; intros H;
    try reflexivity; try discriminate; auto 7.
  all: repeat match goal with
              | H : _ \/ _ |- _ => destruct H
              end;
    try contradiction;
    try match goal with
        | H : In (Which _) (events_of _ _ _ _) |- _ =>
            exfalso; exact (which_in_events_of _ _ _ _ _ H)
        end.
  all: match goal with
       | H : Which _ = Which _ |- _ => vm_compute in H; discriminate H
       end.
Qed.

End MoreOnTheResolver.

(** ** The command builder, again *)

(** X11. The command determines what it was built from: two calls of the
    builder give the same argument list only for the same interpreter,
    query, output directory, bitrate and authentication flag. *)
Theorem build_spotdl_cmd_injective (exe exe' query query' out_dir out_dir'
  bitrate bitrate' : str) (user_auth user_auth' : bool) :
  build_spotdl_cmd exe query out_dir bitrate user_auth
  = build_spotdl_cmd exe' query' out_dir' bitrate' user_auth' ->
  exe = exe' /\ query = query' /\ out_dir = out_dir' /\ bitrate = bitrate'
  /\ user_auth = user_auth'.
Proof.
  destruct user_auth, user_auth'; cbn [build_spotdl_cmd app]; intros H;
    try discriminate H; injection H; intros; subst; auto.
Qed.

(** ** Instances *)

(** An instance of [suffix_is_ignored]: the tracking parameters of the
    sample URL. *)
Lemma suffix_is_ignored_witness :
  resolve world_flat_empty playlist_url
  = resolve world_flat_empty (lit "https://soundcloud.com/user/playlist").
Proof.
  exact (suffix_is_ignored world_flat_empty
           (lit "https://soundcloud.com/user/playlist")
           (lit "utm_source=clip#frag") question_mark
           eq_refl eq_refl eq_refl).
Defined.

Lemma world_exe_only_located :
  located world_exe_only (Executable (lit "C:/bin/yt-dlp.exe")).
Proof. split; [reflexivity|discriminate]. Qed.

Lemma world_exe_only_before (t' : tier_id) (q' : list str) :
  tier_rank t' < 3 ->
  ~ tier_yields world_exe_only (prepared playlist_url) t' q'.
Proof.
  intros Hlt [_ [H|[H _]]]; destruct t'; cbn in Hlt; try lia;
    vm_compute in H; discriminate H.
Qed.

Lemma world_exe_only_yields :
  tier_yields world_exe_only (prepared playlist_url)
    (Executable (lit "C:/bin/yt-dlp.exe")) [lit "Bar - Foo"; lit "Baz"].
Proof. split; [discriminate|]. left. reflexivity. Qed.

(** An instance of [fallback_reaches_tier]: only the executable works. *)
Lemma fallback_reaches_tier_witness :
  fst (resolve world_exe_only playlist_url) = Ok [lit "Bar - Foo"; lit "Baz"]
  /\ length (errors (snd (resolve world_exe_only playlist_url))) = 2.
Proof.
  exact (fallback_reaches_tier world_exe_only playlist_url
           (Executable (lit "C:/bin/yt-dlp.exe")) [lit "Bar - Foo"; lit "Baz"]
           eq_refl world_exe_only_before world_exe_only_located
           world_exe_only_yields).
Defined.

(** An instance of [failed_subprocess_reason]: the module run of
    [world_exe_only]. *)
Lemma failed_subprocess_reason_witness :
  let st := snd (resolve world_exe_only playlist_url) in
  In (lit "python -m yt_dlp error: python.exe: No module named yt_dlp")
    (errors st)
  /\ ~ In (attempt_event world_exe_only (prepared playlist_url) PythonModule
             false)
         (trace st).
Proof.
  assert (Ht : PythonModule <> PythonAPI) by discriminate.
  assert (Hin : In (attempt_event world_exe_only (prepared playlist_url)
                      PythonModule true)
                  (trace (snd (resolve world_exe_only playlist_url))))
    by (right; left; reflexivity).
  assert (Hcode : returncode
                    {| returncode := 1; stdout := [];
                       stderr := lit "python.exe: No module named yt_dlp  " |}
                  <> 0%Z) by discriminate.
  exact (failed_subprocess_reason world_exe_only playlist_url PythonModule
           _ eq_refl Ht Hin eq_refl Hcode).
Defined.

(** An instance of [executable_is_first_found]: [yt-dlp.exe] is run after
    [yt-dlp] was not found. *)
Lemma executable_is_first_found_witness :
  let st := snd (resolve world_exe_only playlist_url) in
  lit "C:/bin/yt-dlp.exe" <> []
  /\ Some (lit "C:/bin/yt-dlp.exe")
     = shutil_which world_exe_only (lit "yt-dlp.exe")
  /\ (In (Which (lit "yt-dlp.exe")) (trace st)
      <-> found (shutil_which world_exe_only (lit "yt-dlp")) = false).
Proof.
  assert (Hin : In (attempt_event world_exe_only (prepared playlist_url)
                      (Executable (lit "C:/bin/yt-dlp.exe")) true)
                  (trace (snd (resolve world_exe_only playlist_url))))
    by (do 4 right; left; reflexivity).
  exact (executable_is_first_found world_exe_only playlist_url
           (lit "C:/bin/yt-dlp.exe") true Hin).
Defined.

(** An instance of [build_spotdl_cmd_injective]. *)
Lemma build_spotdl_cmd_injective_witness :
  lit "python3" = lit "python3" /\ lit "X" = lit "X"
  /\ lit "/tmp" = lit "/tmp" /\ lit "128k" = lit "128k" /\ true = true.
Proof.
  exact (build_spotdl_cmd_injective (lit "python3") (lit "python3")
           (lit "X") (lit "X") (lit "/tmp") (lit "/tmp")
           (lit "128k") (lit "128k") true true eq_refl).
Defined.

(** * The window *)

Import Gui.

Section WindowFacts.

Variable d : desktop.



Lemma of_worker_logs (lines : list str) (f : str -> str) :
  forallb of_worker (map (fun line => LogPut (f line)) lines) = true.
Proof. induction lines; simpl; auto. Qed.

Lemma for_each_log (lines : list str) (st : session) :
  for_each lines (fun line => log (rstrip line)) st
  = (Ok tt,
     mk_session (shown st ++ map (fun line => LogPut (rstrip line)) lines)
       (spawned st)).
Proof.
  revert st. induction lines as [|line lines IH]; intros st; simpl.
  - unfold ret. rewrite app_nil_r. now destruct st.
  - unfold bind, log, emit. rewrite IH. cbn [shown spawned].
    now rewrite <- app_assoc.
Qed.

Lemma _stream_run (cmd : list str) (success : bool) (st : session) :
  _stream d cmd success st
  = (match subprocess_Popen d (spawned st) cmd with
     | Ok (_, returncode) =>
         Ok (if success then Z.eqb returncode 0 else true)
     | Raise exc =>
         if is_class "FileNotFoundError" exc then Ok false else Raise exc
     end,
     mk_session (shown st ++ stream_events d cmd (spawned st))
       (S (spawned st))).
Proof.
  unfold _stream, stream_events, bind, try_except, Popen_call.
  destruct (subprocess_Popen d (spawned st) cmd) as [[lines rc]|exc].
  - cbn -[for_each]. rewrite for_each_log. cbn [shown spawned].
    now rewrite <- app_assoc.
  - destruct (is_class "FileNotFoundError" exc); cbn;
      now rewrite <- ?app_assoc.
Qed.

Lemma stream_events_worker (cmd : list str) (n : nat) :
  forallb of_worker (stream_events d cmd n) = true.
Proof.
  unfold stream_events. cbn [forallb of_worker andb].
  destruct (subprocess_Popen d n cmd) as [[lines rc]|exc].
  - apply of_worker_logs.
  - destruct (is_class "FileNotFoundError" exc); reflexivity.
Qed.


Lemma download_loop_frame (out_dir : str) (queries : list str) :
  forall (total idx : nat) (missing : list str) (st : session),
  exists evs,
    shown (snd (download_loop d out_dir total idx queries missing st))
    = shown st ++ evs
    /\ forallb of_worker evs = true.
Proof.
  induction queries as [|qtxt rest IH]; intros total idx missing st.
  - exists []. simpl. now rewrite app_nil_r.
  - cbn [download_loop]. unfold bind at 1. unfold log, emit.
    unfold bind at 1. rewrite _stream_run. cbn [shown spawned].
    set (st1 := mk_session _ _).
    assert (Hst1 : shown st1
                   = shown st ++ LogPut (track_message idx total qtxt)
                       :: stream_events d (track_cmd d out_dir qtxt)
                            (spawned st))
      by (unfold st1; cbn [shown]; now rewrite <- app_assoc).
    assert (Hw : forallb of_worker
                   (LogPut (track_message idx total qtxt)
                      :: stream_events d (track_cmd d out_dir qtxt)
                           (spawned st)) = true)
      by (cbn [forallb of_worker andb]; apply stream_events_worker).
    assert (Hgo : forall ok,
               exists evs,
                 shown (snd (download_loop d out_dir total (S idx) rest
                               (if ok : bool then missing
                                else missing ++ [qtxt]) st1))
                 = shown st ++ evs
                 /\ forallb of_worker evs = true).
    { intros ok.
      destruct (IH total (S idx) (if ok then missing else missing ++ [qtxt])
                  st1) as (evs & E & W).
      eexists. split; [rewrite E, Hst1, <- app_assoc; reflexivity|].
      now rewrite forallb_app, Hw, W. }
    destruct (subprocess_Popen d (spawned st) (track_cmd d out_dir qtxt))
      as [[lines rc]|exc]; [apply Hgo|].
    destruct (is_class "FileNotFoundError" exc); [apply (Hgo false)|].
    cbn [snd]. eexists. split; [exact Hst1|exact Hw].
Qed.


Lemma resolve_nonempty (w : world) (sc_url : str) (q : list str)
  (s : state) :
  resolve w sc_url = (Ok q, s) -> q <> [].
Proof.
  intros H. destruct (looks_absolute sc_url) eqn:Hvalid;
    [|rewrite (resolve_rejects w sc_url Hvalid) in H; discriminate H].
  pose proof (resolve_run w sc_url Hvalid) as R. rewrite H in R.
  inversion R; subst;
    match goal with
    | Hh : tier_outcome _ _ _ = (Hit q, _) |- _ =>
        exact (tier_hit_nonempty _ _ _ _ _ Hh)
    end.
Qed.

Lemma of_worker_external (evs : list event) :
  forallb of_worker (map External evs) = true.
Proof. induction evs; simpl; auto. Qed.


Lemma _do_soundcloud_frame (scurl out_dir : str) (st : session) :
  exists evs,
    shown (snd (_do_soundcloud d scurl out_dir st)) = shown st ++ evs
    /\ forallb of_worker evs = true.
Proof.
  unfold _do_soundcloud, bind at 1, try_except, bind at 1, call_resolver.
  destruct (resolve (backends d) scurl) as [[queries|exc] s] eqn:Hres.
  - pose proof (resolve_nonempty _ _ _ _ Hres) as Hne.
    unfold ret at 1.
    destruct queries as [|x q] eqn:Eq; [contradiction|]. rewrite <- Eq in *.
    replace (negb (nonempty queries)) with false by (now rewrite Eq).
    unfold bind at 1, log at 1, emit at 1. cbn [shown spawned].
    unfold bind at 1.
    set (st1 := mk_session _ _).
    destruct (download_loop_frame out_dir queries (length queries) 1 [] st1)
      as (evs & E & W).
    destruct (download_loop d out_dir (length queries) 1 queries [] st1)
      as [[missing|exc] st2]; cbn [snd] in E.
    + destruct (nonempty missing); unfold log, emit, ret; cbn [snd shown];
        rewrite E; unfold st1; cbn [shown]; rewrite <- !app_assoc;
        eexists; (split; [reflexivity|]);
        rewrite !forallb_app, of_worker_external, W; reflexivity.
    + cbn [snd]. rewrite E. unfold st1. cbn [shown].
      rewrite <- !app_assoc. eexists. split; [reflexivity|].
      rewrite !forallb_app, of_worker_external, W. reflexivity.
  - unfold bind, emit, ret. cbn [snd shown]. rewrite <- app_assoc.
    eexists. split; [reflexivity|].
    rewrite forallb_app, of_worker_external. reflexivity.
Qed.

(** X13. The branch of the SoundCloud download that warns of a set without
    tracks is never taken, the resolver returning no empty list: whatever
    the URL and the machine, no warning box is among the events the download
    adds. *)
Theorem soundcloud_never_warns (scurl out_dir : str) (st : session) :
  exists evs,
    shown (snd (_do_soundcloud d scurl out_dir st)) = shown st ++ evs
    /\ forall title message, ~ In (ShowWarning title message) evs.
Proof.
  destruct (_do_soundcloud_frame scurl out_dir st) as (evs & E & W).
  exists evs. split; [exact E|]. intros title message Hin.
  rewrite forallb_forall in W. apply W in Hin. discriminate Hin.
Qed.

Lemma _do_soundcloud_failed (scurl out_dir : str) (exc : exn) (s : state)
  (st : session) :
  resolve (backends d) scurl = (Raise exc, s) ->
  _do_soundcloud d scurl out_dir st
  = (Ok tt,
     mk_session
       (shown st ++ map External (trace s)
          ++ [ShowError (lit "SoundCloud")
                (lit "Error reading playlist:" ++ newline ++ exn_str exc)])
       (spawned st)).
Proof.
  intros Hres.
  unfold _do_soundcloud, bind at 1, try_except, bind at 1, call_resolver.
  rewrite Hres. unfold bind, emit, ret. cbn [shown spawned].
  now rewrite <- app_assoc.
Qed.

Lemma makedirs_ok (out_dir : str) (k : G unit) (st : session) :
  os_makedirs d out_dir = Ok tt ->
  bind
    (try_except
       (bind
          (fun st0 =>
             (os_makedirs d out_dir,
              mk_session (shown st0 ++ [MakeDirs out_dir]) (spawned st0)))
          (fun _ => ret true))
       (fun exc =>
          if is_class "PermissionError" exc then
            bind
              (emit (ShowError (lit "Permission")
                       (lit "Cannot write to selected folder.")))
              (fun _ => bind (emit ProgressStopLater) (fun _ => ret false))
          else raise exc))
    (fun ready => if negb ready then ret tt else k) st
  = k (mk_session (shown st ++ [MakeDirs out_dir]) (spawned st)).
Proof.
  intros H. unfold bind at 1, try_except, bind at 1. rewrite H.
  reflexivity.
Qed.

Lemma run_spotdl_ready (url out_dir service : str) (use_auth : bool)
  (st : session) :
  os_makedirs d out_dir = Ok tt ->
  run_spotdl d url out_dir service use_auth st
  = bind
      (if str_eqb service (lit "Spotify")
       then _do_spotify d url out_dir use_auth
       else _do_soundcloud d url out_dir)
      (fun _ =>
         bind (log finished_message)
           (fun _ =>
              bind (emit ProgressStopLater)
                (fun _ =>
                   emit (ShowInfo (lit "Done")
                           (lit "Playlist download completed!")))))
      (mk_session (shown st ++ [MakeDirs out_dir]) (spawned st)).
Proof. intros H. unfold run_spotdl. now rewrite makedirs_ok. Qed.

Lemma completion_run (st : session) :
  bind (log finished_message)
    (fun _ =>
       bind (emit ProgressStopLater)
         (fun _ =>
            emit (ShowInfo (lit "Done")
                    (lit "Playlist download completed!")))) st
  = (Ok tt, mk_session (shown st ++ completion) (spawned st)).
Proof.
  unfold bind, log, emit, completion. cbn [shown spawned].
  now rewrite <- !app_assoc.
Qed.

(** X14. A SoundCloud run whose resolution fails still ends as a completed
    one: after the error box that carries the resolver's message, the worker
    logs the "Finished" line, stops the progress bar and shows the "Playlist
    download completed!" box, and no download is launched. *)
Theorem completion_after_failed_resolution (url out_dir service : str)
  (use_auth : bool) (exc : exn) (s : state) (st : session) :
  str_eqb service (lit "Spotify") = false ->
  os_makedirs d out_dir = Ok tt ->
  resolve (backends d) url = (Raise exc, s) ->
  run_spotdl d url out_dir service use_auth st
  = (Ok tt,
     mk_session
       (shown st ++ MakeDirs out_dir :: map External (trace s)
          ++ ShowError (lit "SoundCloud")
               (lit "Error reading playlist:" ++ newline ++ exn_str exc)
          :: completion)
       (spawned st)).
Proof.
  intros Hsvc Hmk Hres. rewrite (run_spotdl_ready _ _ _ _ _ Hmk), Hsvc.
  unfold bind at 1. rewrite (_do_soundcloud_failed _ _ _ _ _ Hres).
  rewrite completion_run. cbn [shown spawned].
  now rewrite <- !app_assoc.
Qed.

(** X15. A Spotify run launches one command, built from the URL, the
    folder, the bitrate entry and the authentication box, and ends as a
    completed one whatever the process returns: its return code is not
    looked at, and a missing tool only adds its error box. *)
Theorem spotify_exit_code_ignored (url out_dir service : str)
  (use_auth : bool) (st : session) :
  let cmd :=
    build_spotdl_cmd (sys_executable (backends d)) url out_dir (bit_var d)
      use_auth in
  str_eqb service (lit "Spotify") = true ->
  os_makedirs d out_dir = Ok tt ->
  launchable d (spawned st) cmd = true ->
  run_spotdl d url out_dir service use_auth st
  = (Ok tt,
     mk_session
       (shown st ++ MakeDirs out_dir :: LogPut (running_message cmd)
          :: stream_events d cmd (spawned st) ++ completion)
       (S (spawned st))).
Proof.
  intros cmd Hsvc Hmk Hl. rewrite (run_spotdl_ready _ _ _ _ _ Hmk), Hsvc.
  unfold bind at 1, _do_spotify. fold cmd.
  unfold bind at 1, log at 1, emit at 1. unfold bind at 1.
  rewrite _stream_run. cbn [shown spawned].
  unfold launchable in Hl.
  destruct (subprocess_Popen d (spawned st) cmd) as [[lines rc]|e] eqn:Hp.
  - unfold ret at 1. rewrite completion_run. cbn [shown spawned].
    now rewrite <- !app_assoc.
  - rewrite Hl. unfold ret at 1. rewrite completion_run.
    cbn [shown spawned]. now rewrite <- !app_assoc.
Qed.

Lemma _do_spotify_frame (url out_dir : str) (use_auth : bool)
  (st : session) :
  exists evs,
    shown (snd (_do_spotify d url out_dir use_auth st)) = shown st ++ evs
    /\ forallb of_worker evs = true.
Proof.
  unfold _do_spotify.
  unfold bind at 1, log at 1, emit at 1. unfold bind at 1.
  rewrite _stream_run. cbn [shown spawned].
  eexists (LogPut _ :: stream_events d _ (spawned st)).
  split.
  - destruct (subprocess_Popen d (spawned st) _) as [[lines rc]|e];
      [|destruct (is_class "FileNotFoundError" e)];
      cbn [snd shown ret]; unfold ret; cbn [snd shown];
      now rewrite <- !app_assoc.
  - cbn [forallb of_worker andb]. apply stream_events_worker.
Qed.

Lemma run_spotdl_frame (url out_dir service : str) (use_auth : bool)
  (st : session) :
  exists evs,
    shown (snd (run_spotdl d url out_dir service use_auth st))
    = shown st ++ evs
    /\ forallb of_worker evs = true.
Proof.
  unfold run_spotdl. unfold bind at 1, try_except, bind at 1.
  destruct (os_makedirs d out_dir) as [[]|exc].
  - unfold ret at 1. cbn [negb].
    set (st1 := mk_session _ _).
    assert (Hbody : exists evs,
               shown (snd ((if str_eqb service (lit "Spotify")
                            then _do_spotify d url out_dir use_auth
                            else _do_soundcloud d url out_dir) st1))
               = shown st1 ++ evs
               /\ forallb of_worker evs = true).
    { destruct (str_eqb service (lit "Spotify"));
        [apply _do_spotify_frame|apply _do_soundcloud_frame]. }
    destruct Hbody as (evs & E & W).
    unfold bind at 1.
    destruct ((if str_eqb service (lit "Spotify")
               then _do_spotify d url out_dir use_auth
               else _do_soundcloud d url out_dir) st1) as [[[]|exc] st2];
      cbn [snd] in E.
    + rewrite completion_run. cbn [snd shown]. rewrite E. unfold st1.
      cbn [shown]. rewrite <- !app_assoc. eexists. split; [reflexivity|].
      rewrite !forallb_app, W. reflexivity.
    + cbn [snd]. rewrite E. unfold st1. cbn [shown].
      rewrite <- !app_assoc. eexists. split; [reflexivity|].
      rewrite !forallb_app, W. reflexivity.
  - destruct (is_class "PermissionError" exc).
    + unfold bind, emit, ret. cbn [negb snd shown spawned].
      rewrite <- !app_assoc. eexists. split; reflexivity.
    + unfold raise. cbn [snd shown]. eexists. split; reflexivity.
Qed.

Lemma accepted_code :
  accepted d
  = negb (str_eqb (service_var d) (lit "Spotify")
          && negb (contains (strip (url_var d))
                     (lit "open.spotify.com/playlist/")))
    && negb (str_eqb (service_var d) (lit "SoundCloud")
             && negb (contains (strip (url_var d)) (lit "soundcloud.com/"))).
Proof.
  unfold accepted.
  destruct (str_eqb (service_var d) (lit "Spotify")) eqn:E1.
  - apply str_eqb_eq in E1. rewrite E1.
    replace (str_eqb (lit "Spotify") (lit "SoundCloud")) with false
      by reflexivity.
    cbn [andb negb]. now rewrite andb_true_r, negb_involutive.
  - cbn [andb negb].
    destruct (str_eqb (service_var d) (lit "SoundCloud")); cbn [andb negb];
      [now rewrite negb_involutive|reflexivity].
Qed.

(** X16. A click never raises and starts at most one worker. When the
    trimmed URL holds the marker of the selected service it starts the
    progress bar and one worker on the trimmed URL and on the trimmed folder
    entry, or the default folder when that entry is blank; whatever follows
    comes from that worker, whose exception, if any, ends it without
    reaching the click. Otherwise all it does is show one URL error box. *)
Theorem click_outcome (st : session) :
  exists evs n,
    validate_and_go d st = (Ok tt, mk_session (shown st ++ evs) n)
    /\ if accepted d then
         exists rest,
           evs = ProgressStart
                 :: ThreadStart (strip (url_var d)) (chosen_out_dir d)
                      (service_var d) (auth_var d)
                 :: rest
           /\ forall ev, In ev rest ->
                         of_worker ev = true \/ exists exc, ev = ThreadDied exc
       else
         n = spawned st
         /\ exists message, evs = [ShowError (lit "URL") message].
Proof.
  rewrite accepted_code. unfold validate_and_go.
  destruct (str_eqb (service_var d) (lit "Spotify")
            && negb (contains (strip (url_var d))
                       (lit "open.spotify.com/playlist/"))).
  { cbn [negb andb]. unfold emit. do 2 eexists. split; [reflexivity|].
    split; [reflexivity|]. eexists; reflexivity. }
  destruct (str_eqb (service_var d) (lit "SoundCloud")
            && negb (contains (strip (url_var d)) (lit "soundcloud.com/"))).
  { cbn [negb andb]. unfold emit. do 2 eexists. split; [reflexivity|].
    split; [reflexivity|]. eexists; reflexivity. }
  cbn [negb andb]. fold (chosen_out_dir d).
  unfold bind at 1, emit at 1. unfold bind at 1, emit at 1.
  cbn [shown spawned]. unfold thread_start.
  set (st1 := mk_session _ _).
  destruct (run_spotdl_frame (strip (url_var d)) (chosen_out_dir d)
              (service_var d) (auth_var d) st1) as (evs & E & W).
  rewrite forallb_forall in W.
  destruct (run_spotdl d (strip (url_var d)) (chosen_out_dir d)
              (service_var d) (auth_var d) st1) as [[[]|exc] st2];
    cbn [snd] in E.
  - exists (ProgressStart :: ThreadStart (strip (url_var d))
              (chosen_out_dir d) (service_var d) (auth_var d) :: evs),
      (spawned st2).
    split.
    + f_equal. destruct st2 as [sh sp]. cbn [shown spawned] in *.
      rewrite E. unfold st1. cbn [shown]. now rewrite <- !app_assoc.
    + exists evs. split; [reflexivity|]. intros ev Hin. left. now apply W.
  - exists (ProgressStart :: ThreadStart (strip (url_var d))
              (chosen_out_dir d) (service_var d) (auth_var d)
              :: evs ++ [ThreadDied exc]),
      (spawned st2).
    split.
    + f_equal. f_equal. rewrite E. unfold st1. cbn [shown].
      now rewrite <- !app_assoc.
    + eexists. split; [reflexivity|]. intros ev Hin.
      apply in_app_iff in Hin. destruct Hin as [Hin|[<-|[]]];
        [left; now apply W|right; now exists exc].
Qed.

(** X17. A SoundCloud URL that holds [soundcloud.com/] but does not begin
    with [http] passes the click and is refused by the resolver: the worker
    starts, creates the folder, shows the resolver's remediation text in an
    error box without any backend call or download, and then reports the
    playlist as completed. *)
Theorem schemeless_soundcloud_url (st : session) :
  service_var d = lit "SoundCloud" ->
  contains (strip (url_var d)) (lit "soundcloud.com/") = true ->
  looks_absolute (strip (url_var d)) = false ->
  os_makedirs d (chosen_out_dir d) = Ok tt ->
  validate_and_go d st
  = (Ok tt,
     mk_session
       (shown st
          ++ [ ProgressStart;
               ThreadStart (strip (url_var d)) (chosen_out_dir d)
                 (lit "SoundCloud") (auth_var d);
               MakeDirs (chosen_out_dir d);
               ShowError (lit "SoundCloud")
                 (lit "Error reading playlist:" ++ newline
                    ++ invalid_url_message) ]
          ++ completion)
       (spawned st)).
Proof.
  intros Hsvc Hurl Habs Hmk. unfold validate_and_go. rewrite Hsvc, Hurl.
  replace (str_eqb (lit "SoundCloud") (lit "Spotify")) with false
    by reflexivity.
  rewrite str_eqb_refl. cbn [andb negb]. fold (chosen_out_dir d).
  unfold bind at 1, emit at 1. unfold bind at 1, emit at 1.
  cbn [shown spawned]. unfold thread_start.
  rewrite (run_spotdl_ready _ _ _ _ _ Hmk).
  replace (str_eqb (lit "SoundCloud") (lit "Spotify")) with false
    by reflexivity.
  unfold bind at 1.
  rewrite (_do_soundcloud_failed _ _ _ _ _
             (resolve_rejects (backends d) _ Habs)).
  rewrite completion_run. cbn [shown spawned trace map].
  now rewrite <- !app_assoc.
Qed.

(** X18. When the folder cannot be created, nothing is resolved or
    launched and no completion is reported. A [PermissionError] gives an
    error box and stops the progress bar; any other exception of
    [os.makedirs] ends the worker without a box, and the progress bar the
    click started is never stopped. *)
Theorem folder_error (exc : exn) (st : session) :
  accepted d = true ->
  os_makedirs d (chosen_out_dir d) = Raise exc ->
  validate_and_go d st
  = (Ok tt,
     mk_session
       (shown st
          ++ [ ProgressStart;
               ThreadStart (strip (url_var d)) (chosen_out_dir d)
                 (service_var d) (auth_var d);
               MakeDirs (chosen_out_dir d) ]
          ++ (if is_class "PermissionError" exc then
                [ ShowError (lit "Permission")
                    (lit "Cannot write to selected folder.");
                  ProgressStopLater ]
              else [ThreadDied exc]))
       (spawned st)).
Proof.
  rewrite accepted_code. intros Hacc Hmk. unfold validate_and_go.
  apply andb_true_iff in Hacc. destruct Hacc as [H1 H2].
  apply negb_true_iff in H1. apply negb_true_iff in H2. rewrite H1, H2.
  fold (chosen_out_dir d).
  unfold bind at 1, emit at 1. unfold bind at 1, emit at 1.
  cbn [shown spawned]. unfold thread_start, run_spotdl.
  unfold bind at 1, try_except, bind at 1. rewrite Hmk.
  destruct (is_class "PermissionError" exc).
  - unfold bind, emit, ret. cbn [negb shown spawned].
    now rewrite <- !app_assoc.
  - unfold raise. cbn [shown spawned]. now rewrite <- !app_assoc.
Qed.



End WindowFacts.

(** ** Instances on the sample desktop *)


(** An instance of [completion_after_failed_resolution]: a URL without its
    scheme. *)
Lemma completion_after_failed_resolution_witness :
  run_spotdl sample_desktop (lit "soundcloud.com/user/sets/mix")
    (lit "/tmp/out") (lit "SoundCloud") false (mk_session [] 0)
  = (Ok tt,
     mk_session
       (MakeDirs (lit "/tmp/out")
          :: ShowError (lit "SoundCloud")
               (lit "Error reading playlist:" ++ newline
                  ++ invalid_url_message)
          :: completion)
       0).
Proof.
  exact (completion_after_failed_resolution sample_desktop
           (lit "soundcloud.com/user/sets/mix") (lit "/tmp/out")
           (lit "SoundCloud") false
           (mk_exn ValueError invalid_url_message) (mk_state [] [])
           (mk_session [] 0) eq_refl eq_refl eq_refl).
Defined.

(** An instance of [spotify_exit_code_ignored]: the second launch of the
    session, which returns 1. *)
Lemma spotify_exit_code_ignored_witness :
  let cmd :=
    build_spotdl_cmd (lit "/usr/bin/python3")
      (lit "https://open.spotify.com/playlist/abc") (lit "/tmp/out")
      (lit "320k") true in
  subprocess_Popen sample_desktop 1 cmd = Ok ([lit "Downloaded  "], 1%Z)
  /\ run_spotdl sample_desktop (lit "https://open.spotify.com/playlist/abc")
       (lit "/tmp/out") (lit "Spotify") true (mk_session [] 1)
     = (Ok tt,
        mk_session
          (MakeDirs (lit "/tmp/out") :: LogPut (running_message cmd)
             :: Popen cmd :: LogPut (lit "Downloaded") :: completion)
          2).
Proof.
  intros cmd. split; [reflexivity|].
  exact (spotify_exit_code_ignored sample_desktop
           (lit "https://open.spotify.com/playlist/abc") (lit "/tmp/out")
           (lit "Spotify") true (mk_session [] 1) eq_refl eq_refl eq_refl).
Defined.

(** An instance of [schemeless_soundcloud_url]: the sample desktop, whose
    folder entry is blank. *)
Lemma schemeless_soundcloud_url_witness :
  validate_and_go sample_desktop (mk_session [] 0)
  = (Ok tt,
     mk_session
       ([ ProgressStart;
          ThreadStart (lit "soundcloud.com/user/sets/mix") DEFAULT_OUT
            (lit "SoundCloud") false;
          MakeDirs DEFAULT_OUT;
          ShowError (lit "SoundCloud")
            (lit "Error reading playlist:" ++ newline
               ++ invalid_url_message) ]
          ++ completion)
       0).
Proof.
  exact (schemeless_soundcloud_url sample_desktop (mk_session [] 0)
           eq_refl eq_refl eq_refl eq_refl).
Defined.

(** A desktop whose folder cannot be created, for a reason other than a
    missing permission. *)
Lemma folder_error_witness :
  let d :=
    {| backends := world_broken;
       os_makedirs := fun _ => Raise file_not_found;
       subprocess_Popen := fun _ _ => Raise file_not_found;
       url_var := lit "https://open.spotify.com/playlist/abc";
       out_var := lit "/nowhere/music";
       bit_var := lit "320k";
       service_var := lit "Spotify";
       auth_var := false |} in
  validate_and_go d (mk_session [] 0)
  = (Ok tt,
     mk_session
       [ ProgressStart;
         ThreadStart (lit "https://open.spotify.com/playlist/abc")
           (lit "/nowhere/music") (lit "Spotify") false;
         MakeDirs (lit "/nowhere/music");
         ThreadDied file_not_found ]
       0).
Proof.
  intros d.
  exact (folder_error d file_not_found (mk_session [] 0) eq_refl eq_refl).
Defined.

